(** * SortVision: the ranking card of the metrics panel

    A shallow embedding of [src/components/panels/metrics/RankingCard.jsx]:
    the colour-scheme table, the width of the performance bar and the
    "x% faster / slower than current algorithm" block, together with the
    ranking engine that feeds the card its [rank] prop.

    The card is a pure function of its props, so it is embedded as a
    function from a record of props to a record holding the parts of the
    rendered output that depend on the props. *)

From Stdlib Require Import ZArith QArith Qround Qabs Bool List String Lia Lqa.
From Stdlib Require Import SpecFloat.
From Stdlib Require Import Sorting.Sorted Sorting.Permutation.
Import ListNotations.

Local Open Scope string_scope.

(** ** JavaScript numbers

    The card computes with JavaScript numbers: it divides, subtracts,
    multiplies, compares and rounds them.  These operations are gathered
    in an interface with two implementations:

    - [Binary64.number], the IEEE 754 binary64 values that JavaScript
      computes with, every operation rounding as the standard says; the
      properties of the comparison block are proved on it;
    - [JS.number], exact rationals extended with the infinities and NaN:
      the rounding error of the division, the subtraction and the
      multiplication is absent there and the two zeros are identified.
      It serves to say what the percentage is as a rational, and it is
      an idealisation: near a rounding tie it and the card can give
      different percentages. *)

Class Number (N : Type) : Type := {
  num : Z -> N;                 (* an integer literal *)
  js_div : N -> N -> N;         (* x / y *)
  js_sub : N -> N -> N;         (* x - y *)
  js_mul : N -> N -> N;         (* x * y *)
  js_neg : N -> N;              (* - x *)
  js_lt : N -> N -> bool;       (* x < y *)
  js_le : N -> N -> bool;       (* x <= y *)
  Math_round : N -> N;          (* Math.round(x) *)
  parseFloat : N -> N           (* parseFloat(x), for a number x *)
}.

Declare Scope js_scope.
Delimit Scope js_scope with js.

Notation "x / y" := (js_div x y) : js_scope.
Notation "x * y" := (js_mul x y) : js_scope.
Notation "x - y" := (js_sub x y) : js_scope.
Notation "- x" := (js_neg x) : js_scope.
Notation "x <? y" := (js_lt x y) : js_scope.
Notation "x >? y" := (js_lt y x) : js_scope.
Notation "x <=? y" := (js_le x y) : js_scope.
Notation "x >=? y" := (js_le y x) : js_scope.

(** *** Exact numbers *)

Module JS.

Inductive number : Type :=
| NaN
| PosInf
| NegInf
| Fin (q : Q).

Definition of_Z (z : Z) : number := Fin (inject_Z z).

(** Sign of a rational, as the comparison of 0 with it. *)
Definition Qpos_b (q : Q) : bool :=
  match (0 ?= q)%Q with Lt => true | _ => false end.
Definition Qneg_b (q : Q) : bool :=
  match (0 ?= q)%Q with Gt => true | _ => false end.
Definition Qzero_b (q : Q) : bool :=
  match (0 ?= q)%Q with Eq => true | _ => false end.

(** Unary minus. *)
Definition neg (x : number) : number :=
  match x with
  | NaN => NaN
  | PosInf => NegInf
  | NegInf => PosInf
  | Fin q => Fin (- q)%Q
  end.

(** An infinity with the sign of [PosInf] when [pos] holds. *)
Definition inf (pos : bool) : number := if pos then PosInf else NegInf.

(** [x / y] (ECMAScript Number::divide). *)
Definition div (x y : number) : number :=
  match x, y with
  | NaN, _ | _, NaN => NaN
  | Fin a, Fin b =>
      if Qzero_b b
      then (if Qzero_b a then NaN else inf (Qpos_b a))
      else Fin (a / b)%Q
  | Fin _, PosInf | Fin _, NegInf => Fin 0%Q
  | PosInf, Fin b => inf (negb (Qneg_b b))
  | NegInf, Fin b => inf (Qneg_b b)
  | _, _ => NaN
  end.

(** [x * y] (ECMAScript Number::multiply). *)
Definition mul (x y : number) : number :=
  match x, y with
  | NaN, _ | _, NaN => NaN
  | Fin a, Fin b => Fin (a * b)%Q
  | PosInf, Fin b | Fin b, PosInf =>
      if Qzero_b b then NaN else inf (Qpos_b b)
  | NegInf, Fin b | Fin b, NegInf =>
      if Qzero_b b then NaN else inf (Qneg_b b)
  | PosInf, PosInf | NegInf, NegInf => PosInf
  | PosInf, NegInf | NegInf, PosInf => NegInf
  end.

(** [x + y] and [x - y] (ECMAScript Number::add, Number::subtract). *)
Definition add (x y : number) : number :=
  match x, y with
  | NaN, _ | _, NaN => NaN
  | Fin a, Fin b => Fin (a + b)%Q
  | PosInf, NegInf | NegInf, PosInf => NaN
  | PosInf, _ | _, PosInf => PosInf
  | NegInf, _ | _, NegInf => NegInf
  end.

Definition sub (x y : number) : number := add x (neg y).

(** [x < y]: false as soon as one side is NaN. *)
Definition lt (x y : number) : bool :=
  match x, y with
  | NaN, _ | _, NaN => false
  | Fin a, Fin b => match (a ?= b)%Q with Lt => true | _ => false end
  | NegInf, NegInf => false
  | NegInf, _ => true
  | _, NegInf => false
  | PosInf, _ => false
  | Fin _, PosInf => true
  end.

(** [x <= y]: again false on NaN, so [x <= y] is not the negation of
    [y < x]. *)
Definition le (x y : number) : bool :=
  match x, y with
  | NaN, _ | _, NaN => false
  | Fin a, Fin b => match (a ?= b)%Q with Gt => false | _ => true end
  | NegInf, _ => true
  | _, PosInf => true
  | _, _ => false
  end.

(** [Math.round]: the nearest integer, a tie going towards +Infinity;
    the special values are returned unchanged. *)
Definition round (x : number) : number :=
  match x with
  | Fin q => of_Z (Qfloor (q + (1 # 2))%Q)
  | _ => x
  end.

(** [parseFloat] applied to a number converts it to a string and parses
    that string back, which gives the number again. *)
Definition parseFloat (x : number) : number := x.

End JS.

#[export] Instance exact_Number : Number JS.number := {|
  num := JS.of_Z;
  js_div := JS.div;
  js_sub := JS.sub;
  js_mul := JS.mul;
  js_neg := JS.neg;
  js_lt := JS.lt;
  js_le := JS.le;
  Math_round := JS.round;
  parseFloat := JS.parseFloat
|}.

(** *** Binary64 numbers *)

Module Binary64.

Definition prec : Z := 53.
Definition emax : Z := 1024.

Definition number : Type := spec_float.

(** The binary64 value of an integer (exact below 2^53). *)
Definition of_Z (z : Z) : number := binary_normalize prec emax z 0 false.

(** [Math.round]: a value whose exponent is not negative is an integer
    already; otherwise the value is [+-m / 2^(-e)] and the result is
    [floor (value + 1/2)], computed on integers, with the sign of the
    argument when it is a zero. *)
Definition round (x : number) : number :=
  match x with
  | S754_finite s m e =>
      if (0 <=? e)%Z then x
      else
        let d := (2 ^ (- e))%Z in
        let n := ((2 * cond_Zopp s (Zpos m) + d) / (2 * d))%Z in
        binary_normalize prec emax n 0 s
  | _ => x
  end.

(** [parseFloat] applied to a number converts it to a string and parses
    that string back.  This gives the number again, except that -0 is
    printed as "0" and so comes back as +0. *)
Definition parseFloat (x : number) : number :=
  match x with
  | S754_zero _ => S754_zero false
  | _ => x
  end.

(** The rounding of the specification on binary64 values: the nearest
    integer, a tie going away from zero.  The magnitude [m / 2^(-e)] is
    rounded to [floor (m / 2^(-e) + 1/2)] and the sign is put back. *)
Definition half_away_integer (s : bool) (m : positive) (e : Z) : Z :=
  cond_Zopp s ((2 * Zpos m + 2 ^ (- e)) / (2 * 2 ^ (- e)))%Z.

Definition round_half_away (x : number) : number :=
  match x with
  | S754_finite s m e =>
      if (0 <=? e)%Z then x
      else binary_normalize prec emax (half_away_integer s m e) 0 s
  | _ => x
  end.

(** A time that was measured: a valid binary64 value that is finite and
    strictly positive. *)
Definition positive_finite (x : number) : bool :=
  match x with
  | S754_finite false m e => bounded prec emax m e
  | _ => false
  end.

End Binary64.

#[export] Instance binary64_Number : Number Binary64.number := {|
  num := Binary64.of_Z;
  js_div := SFdiv Binary64.prec Binary64.emax;
  js_sub := SFsub Binary64.prec Binary64.emax;
  js_mul := SFmul Binary64.prec Binary64.emax;
  js_neg := SFopp;
  js_lt := SFltb;
  js_le := SFleb;
  Math_round := Binary64.round;
  parseFloat := Binary64.parseFloat
|}.

(** ** The props of the card *)

(** The metrics of one run ([metrics] and [currentAlgoMetrics]). *)
Record Metrics (N : Type) : Type := {
  swaps : Z;
  comparisons : Z;
  time : N
}.

Arguments swaps {N} _.
Arguments comparisons {N} _.
Arguments time {N} _.

(** The props of [RankingCard]; [currentAlgoMetrics] is [None] when the
    prop is [null] or [undefined]. *)
Record Props (N : Type) : Type := {
  algo : string;
  metrics : Metrics N;
  rank : Z;
  algorithm : string;
  currentAlgoMetrics : option (Metrics N)
}.

Arguments algo {N} _.
Arguments metrics {N} _.
Arguments rank {N} _.
Arguments algorithm {N} _.
Arguments currentAlgoMetrics {N} _.

(** ** getColorScheme *)

Record Hover : Type := { hover_bg : string; hover_text : string }.

Record ColorScheme : Type := {
  bg : string;
  accent : string;
  border : string;
  text : string;
  hover : Hover
}.

Definition green : ColorScheme := {|
  bg := "from-green-500/5 via-green-500/10 to-green-500/5";
  accent := "from-green-500/10 to-emerald-500/10";
  border := "border-green-500";
  text := "text-green-500";
  hover := {| hover_bg := "from-green-500/20 via-green-500/30 to-green-500/20";
              hover_text := "text-green-400" |}
|}.

Definition cyan : ColorScheme := {|
  bg := "from-cyan-500/5 via-cyan-500/10 to-cyan-500/5";
  accent := "from-cyan-500/10 to-blue-500/10";
  border := "border-cyan-500";
  text := "text-cyan-500";
  hover := {| hover_bg := "from-cyan-500/20 via-cyan-500/30 to-cyan-500/20";
              hover_text := "text-cyan-400" |}
|}.

Definition red : ColorScheme := {|
  bg := "from-red-500/5 via-red-500/10 to-red-500/5";
  accent := "from-red-500/10 to-orange-500/10";
  border := "border-red-500";
  text := "text-red-500";
  hover := {| hover_bg := "from-red-500/20 via-red-500/30 to-red-500/20";
              hover_text := "text-red-400" |}
|}.

Definition slate : ColorScheme := {|
  bg := "from-slate-500/5 via-slate-500/10 to-slate-500/5";
  accent := "from-slate-500/10 to-slate-400/10";
  border := "border-slate-500";
  text := "text-slate-500";
  hover := {| hover_bg := "from-slate-500/20 via-slate-500/30 to-slate-500/20";
              hover_text := "text-slate-400" |}
|}.

(** The [switch] of the source: the cases are tried in order with [===]. *)
Definition getColorScheme (algo : string) : ColorScheme :=
  if (algo =? "quick") || (algo =? "merge") || (algo =? "heap") then green
  else if (algo =? "radix") || (algo =? "bucket") then cyan
  else if (algo =? "insertion") || (algo =? "selection") || (algo =? "bubble")
       then red
  else slate.

(** ** The performance bar *)

(** [Math.max(5, 100 - (rank - 1) * 15)], the width of the bar in percent. *)
Definition barWidth (rank : Z) : Z := Z.max 5 (100 - (rank - 1) * 15).

(** ** The comparison with the current algorithm *)

Inductive Direction : Type := faster | slower.

Record Comparison (N : Type) : Type := {
  direction : Direction;
  percent : N
}.

Arguments direction {N} _.
Arguments percent {N} _.

Local Open Scope js_scope.

(** The block guarded by
    [algo !== algorithm && currentAlgoMetrics && algoMetrics.time > 0];
    [None] when nothing is rendered. *)
Definition renderComparison {N : Type} `{Number N}
    (algo : string) (algoMetrics : Metrics N)
    (algorithm : string) (currentAlgoMetrics : option (Metrics N))
  : option (Comparison N) :=
  if negb (algo =? algorithm)%string then
    match currentAlgoMetrics with
    | Some currentAlgoMetrics =>
        if time algoMetrics >? num 0 then
          if parseFloat (time algoMetrics)
             <? parseFloat (time currentAlgoMetrics)
          then Some {| direction := faster;
                       percent := Math_round
                         ((parseFloat (time algoMetrics)
                           / parseFloat (time currentAlgoMetrics) - num 1)
                          * num (-100)) |}
          else Some {| direction := slower;
                       percent := Math_round
                         ((parseFloat (time algoMetrics)
                           / parseFloat (time currentAlgoMetrics) - num 1)
                          * num 100) |}
        else None
    | None => None
    end
  else None.

(** What the card shows, as far as it depends on the props. *)
Record Rendered (N : Type) : Type := {
  colorScheme : ColorScheme;
  crown : bool;
  currentBadge : bool;
  width : Z;
  comparison : option (Comparison N)
}.

Arguments colorScheme {N} _.
Arguments crown {N} _.
Arguments currentBadge {N} _.
Arguments width {N} _.
Arguments comparison {N} _.

Definition RankingCard {N : Type} `{Number N} (p : Props N) : Rendered N := {|
  colorScheme := getColorScheme (algo p);
  crown := (rank p =? 1)%Z;
  currentBadge := (algo p =? algorithm p)%string;
  width := barWidth (rank p);
  comparison :=
    renderComparison (algo p) (metrics p) (algorithm p) (currentAlgoMetrics p)
|}.

(** ** The comparator interface

    A metrics record together with the identifier of its algorithm, and
    [compare candidate baseline]: the comparison block of the card of
    [candidate] when [baseline] is the current algorithm. *)
Record MetricsRecord (N : Type) : Type := {
  algorithmId : string;
  record : Metrics N
}.

Arguments algorithmId {N} _.
Arguments record {N} _.

(** The time of a record as the card reads it. *)
Definition timeMs {N : Type} `{Number N} (r : MetricsRecord N) : N :=
  parseFloat (time (record r)).

Definition compare {N : Type} `{Number N} (r b : MetricsRecord N)
  : option (Comparison N) :=
  comparison (RankingCard {|
    algo := algorithmId r;
    metrics := record r;
    rank := 1;
    algorithm := algorithmId b;
    currentAlgoMetrics := Some (record b)
  |}).

(** A record of algorithm [id] whose run took [t] milliseconds. *)
Definition run {N : Type} (id : string) (t : N) : MetricsRecord N :=
  {| algorithmId := id;
     record := {| swaps := 0; comparisons := 0; time := t |} |}.

(** ** The ranking engine *)

Module RankingEngine.

(** A record annotated with its 1-based rank. *)
Record RankedEntry (N : Type) : Type := {
  ranked_record : MetricsRecord N;
  ranked_rank : Z
}.

Arguments ranked_record {N} _.
Arguments ranked_rank {N} _.

Section Engine.

Context {N : Type} {HN : Number N}.

(** A record is eligible when its time is strictly positive. *)
Definition eligible (r : MetricsRecord N) : bool := timeMs r >? num 0.

(** [x] may be ranked before [y]. *)
Definition by_time (x y : MetricsRecord N) : Prop :=
  (timeMs x <=? timeMs y) = true.

(** Insertion of [r] in front of the first record that is not faster than
    it: [r] stays ahead of the records of equal time that follow it. *)
Fixpoint insert (r : MetricsRecord N) (l : list (MetricsRecord N))
  : list (MetricsRecord N) :=
  match l with
  | [] => [r]
  | h :: t =>
      if timeMs r <=? timeMs h then r :: h :: t
      else h :: insert r t
  end.

(** Stable sort, ascending by time. *)
Fixpoint sort (l : list (MetricsRecord N)) : list (MetricsRecord N) :=
  match l with
  | [] => []
  | r :: t => insert r (sort t)
  end.

(** Ranks [n], [n + 1], ... given by position. *)
Fixpoint number_from (n : Z) (l : list (MetricsRecord N))
  : list (RankedEntry N) :=
  match l with
  | [] => []
  | r :: t => {| ranked_record := r; ranked_rank := n |}
              :: number_from (n + 1) t
  end.

(** Modelled from the spec: the function [rank] that orders the records and
    hands each card its [rank] prop is not among the source files (only its
    consumer, the card, is).  Following section 4.1 of the specification:
    the records come in the iteration order of the input mapping, those
    whose time is not strictly positive are left out, the rest is sorted
    ascending by time with a stable sort, and the ranks are the positions
    in the sorted sequence, counted from 1. *)
Definition rank (records : list (MetricsRecord N)) : list (RankedEntry N) :=
  number_from 1 (sort (filter eligible records)).

End Engine.

End RankingEngine.

(** ** Rounding as the specification words it *)

(** Nearest integer, a tie going away from zero. *)
Definition round_half_away_from_zero (q : Q) : Z :=
  if Qle_bool 0 q then Qfloor (q + (1 # 2))%Q
  else (- Qfloor (- q + (1 # 2))%Q)%Z.

(** The relative difference of the specification,
    [delta = r.timeMs / b.timeMs - 1], on rationals. *)
Definition delta (a c : Q) : Q := (a / c - 1)%Q.

(** ** Binary64 values and the value 1

    The value of a mantissa [m] with exponent [e] is [m * 2 ^ e].  The
    predicates below compare such a value with 1, and two such values with
    each other, on integers; the proofs follow the quotient of two times
    through the rounding of the division with them. *)

(** [m * 2 ^ e >= 1]. *)
Definition ge1 (m e : Z) : Prop := (0 < m /\ 2 ^ (- e) <= m)%Z.

(** [m * 2 ^ e <= 1], for an exponent that is not positive. *)
Definition le1 (m e : Z) : Prop := (0 <= m /\ e <= 0 /\ m <= 2 ^ (- e))%Z.

(** [(m + 1) * 2 ^ e <= 1], for an exponent that is not positive. *)
Definition below1 (m e : Z) : Prop :=
  (0 <= m /\ e <= 0 /\ m + 1 <= 2 ^ (- e))%Z.

(** [m * 2 ^ e] counted in units of [2 ^ t], for [t <= e]. *)
Definition scaled (m e t : Z) : Z := (m * 2 ^ (e - t))%Z.

(** [ma * 2 ^ ea < mc * 2 ^ ec]. *)
Definition value_lt (ma : positive) (ea : Z) (mc : positive) (ec : Z)
  : Prop :=
  (scaled (Zpos ma) ea (Z.min ea ec) < scaled (Zpos mc) ec (Z.min ea ec))%Z.

(** A binary64 value that is a zero, or else is not NaN and has sign [s]
    ([true] for negative). *)
Definition signed (s : bool) (x : spec_float) : Prop :=
  match x with
  | S754_zero _ => True
  | S754_infinity sx | S754_finite sx _ _ => sx = s
  | S754_nan => False
  end.

(** ** Binary64 values and the value 100

    The same comparisons with 100, for an exponent of at most 2
    (100 is [25 * 2 ^ 2]), and the mantissas that have the exponent of
    the format. *)

(** [m * 2 ^ e <= 100]. *)
Definition le100 (m e : Z) : Prop :=
  (0 <= m /\ e <= 2 /\ m <= 25 * 2 ^ (2 - e))%Z.

(** [(m + 1) * 2 ^ e <= 100]. *)
Definition below100 (m e : Z) : Prop :=
  (0 <= m /\ e <= 2 /\ m + 1 <= 25 * 2 ^ (2 - e))%Z.

(** The exponent [e] is the one that the format gives to a mantissa of
    the size of [m]. *)
Definition canonical (m e : Z) : Prop :=
  fexp Binary64.prec Binary64.emax (Zdigits2 m + e)%Z = e.

(** ** The class names of the card

    The parts of the class names of the card that are computed from the
    props: the value of each interpolated expression of the templates of
    lines 71 to 131, in the order of the source. *)

Record CardClasses : Type := {
  borderClass : string;       (* line 72 *)
  gradientClass : string;     (* line 77 *)
  accentClass : string;       (* line 82 *)
  lineClass : string;         (* line 87 *)
  nameClass : string;         (* line 92: the text colour of the name *)
  nameHoverClass : string;    (* line 92: after "group-hover:" *)
  badgeClass : string;        (* lines 116 and 117 *)
  barClass : string           (* lines 129 and 130 *)
}.

Definition cardClasses {N : Type} (p : Props N) : CardClasses :=
  let colorScheme := getColorScheme (algo p) in
  {| borderClass :=
       if (rank p =? 1)%Z then "border-yellow-500" else border colorScheme;
     gradientClass :=
       if (rank p =? 1)%Z
       then "from-yellow-500/5 via-yellow-500/10 to-yellow-500/5"
       else bg colorScheme;
     accentClass :=
       if (rank p =? 1)%Z then "from-yellow-500/10 to-amber-500/10"
       else accent colorScheme;
     lineClass :=
       if (rank p =? 1)%Z
       then "from-yellow-500/50 via-amber-500/50 to-yellow-500/50"
       else bg colorScheme;
     nameClass := text colorScheme;
     nameHoverClass := hover_text (hover colorScheme);
     badgeClass :=
       if (rank p =? 1)%Z
       then "bg-yellow-500/10 text-yellow-500 group-hover:bg-yellow-500/20 group-hover:text-yellow-400"
       else "bg-" ++ text colorScheme ++ "/10 text-" ++ text colorScheme
            ++ " group-hover:bg-" ++ text colorScheme
            ++ "/20 group-hover:" ++ hover_text (hover colorScheme);
     barClass :=
       if (rank p =? 1)%Z then "bg-yellow-500 group-hover:bg-yellow-400"
       else "bg-" ++ text colorScheme
            ++ " group-hover:" ++ hover_text (hover colorScheme)
  |}.

(** ** Local storage

    [localStorage] as a function from keys to the stored text; [None] is
    the [null] that [getItem] returns for a key that is not there. *)

Definition Storage : Type := string -> option string.

Definition getItem (s : Storage) (key : string) : option string := s key.

Definition setItem (key value : string) (s : Storage) : Storage :=
  fun k => if (k =? key)%string then Some value else s k.

(** [x === 'true'] and [x !== 'true'] for the result of [getItem]. *)
Definition is_true_text (x : option string) : bool :=
  match x with
  | Some v => (v =? "true")%string
  | None => false
  end.

(** ** The mobile overlay

    [MobileOverlay.jsx]: the effect that runs when the overlay is mounted
    and the handlers of its two buttons.  What they do to the page is
    given as the list of their actions, each with the moment it is
    scheduled for. *)

Module MobileOverlay.

(** What the effect reads. *)
Record Env : Type := {
  localStorage : Storage;
  userAgent : string;       (* navigator.userAgent *)
  innerWidth : Z            (* window.innerWidth *)
}.

(** The test of the regular expression
    [/iPhone|iPad|iPod|Android|webOS|BlackBerry|IEMobile|Opera Mini/i]:
    one of the words occurs somewhere in the text, the case of the ASCII
    letters being ignored (with the flag [i] and without the flag [u] a
    character outside ASCII never matches an ASCII letter). *)
Definition to_lower (c : Ascii.ascii) : Ascii.ascii :=
  let n := Ascii.nat_of_ascii c in
  if (65 <=? n)%nat && (n <=? 90)%nat then Ascii.ascii_of_nat (n + 32)
  else c.

Fixpoint prefix_ci (word s : string) : bool :=
  match word with
  | EmptyString => true
  | String a word' =>
      match s with
      | EmptyString => false
      | String b s' =>
          Ascii.eqb (to_lower a) (to_lower b) && prefix_ci word' s'
      end
  end.

Fixpoint includes_ci (word s : string) : bool :=
  prefix_ci word s
  || match s with
     | EmptyString => false
     | String _ s' => includes_ci word s'
     end.

Definition mobileWords : list string :=
  ["iPhone"; "iPad"; "iPod"; "Android"; "webOS"; "BlackBerry"; "IEMobile";
   "Opera Mini"].

Definition isMobileDevice (env : Env) : bool :=
  existsb (fun word => includes_ci word (userAgent env)) mobileWords
  || (innerWidth env <=? 768)%Z.

(** The moment an action is scheduled for. *)
Inductive When : Type :=
| Now                              (* in the effect or the handler itself *)
| NextFrame                        (* requestAnimationFrame *)
| After (ms : Z)                   (* setTimeout *)
| NextFrameThenAfter (ms : Z).     (* setTimeout inside requestAnimationFrame *)

Inductive Action : Type :=
| SetViewportScale    (* style.setProperty('--viewport-scale', '0.8') *)
| AddDesktopClass     (* classList.add('desktop-view-requested') *)
| SetOverlayVisible (visible : bool)   (* setMobileOverlayVisible *)
| SetBodyOverflow (value : string)     (* document.body.style.overflow *)
| SetAnimationStage (stage : Z)
| RequestFullscreen
| InjectScript.

(** [handleOrientationChange], with the value of [hasRequestedDesktop]
    that it closes over. *)
Definition handleOrientationChange (hasRequestedDesktop : bool)
  : list (When * Action) :=
  if hasRequestedDesktop then [(After 200, SetViewportScale)] else [].

(** What the effect does: its actions, and whether it registers the
    listener of [orientationchange] ([Some] of the value of
    [hasRequestedDesktop] the listener closes over). *)
Record Mounted : Type := {
  actions : list (When * Action);
  listener : option bool
}.

Definition mount (env : Env) : Mounted :=
  let hasUserContinued := getItem (localStorage env) "continue-on-mobile" in
  let hasRequestedDesktop :=
    is_true_text (getItem (localStorage env) "request-desktop-site") in
  if hasRequestedDesktop then
    {| actions := [(Now, SetViewportScale); (Now, AddDesktopClass)];
       listener := None |}
  else
    {| actions :=
         if isMobileDevice env && negb (is_true_text hasUserContinued)
         then [(NextFrame, SetOverlayVisible true);
               (NextFrame, SetBodyOverflow "hidden");
               (After 200, SetAnimationStage 1);
               (After 400, SetAnimationStage 2);
               (After 600, SetAnimationStage 3)]
         else [];
       listener := Some hasRequestedDesktop |}.

(** [handleContinue]: its actions and the storage it leaves. *)
Definition handleContinue (s : Storage) : list (When * Action) * Storage :=
  ([(Now, SetAnimationStage 4);
    (NextFrameThenAfter 300, SetOverlayVisible false);
    (NextFrameThenAfter 300, SetBodyOverflow "auto")],
   setItem "continue-on-mobile" "true" s).

(** [handleRequestDesktop].  [fullscreen] tells whether
    [requestFullscreen] is defined, and [scriptCompletes] whether the
    injected script runs to the end of its [try] block, where it stores
    ['request-desktop-site']; the page being shown again after the click
    on the hidden link is a later [mount]. *)
Definition handleRequestDesktop (fullscreen scriptCompletes : bool)
    (s : Storage) : list (When * Action) * Storage :=
  (([(Now, SetAnimationStage 4)]
    ++ (if fullscreen then [(NextFrameThenAfter 300, RequestFullscreen)]
        else [])
    ++ [(NextFrameThenAfter 300, SetViewportScale);
        (NextFrameThenAfter 300, AddDesktopClass);
        (NextFrameThenAfter 300, InjectScript);
        (NextFrameThenAfter 300, SetOverlayVisible false);
        (NextFrameThenAfter 300, SetBodyOverflow "auto")])%list,
   let s' := setItem "continue-on-mobile" "true" s in
   if scriptCompletes then setItem "request-desktop-site" "true" s'
   else s').

End MobileOverlay.

(** ** The sound button

    [SoundButton.jsx]: the initial state read from the storage and the
    handler of the button.  The audio engine is outside the source files;
    what is kept of it is whether each of its calls succeeds. *)

Module SoundButton.

(** [JSON.stringify] of a boolean. *)
Definition JSON_stringify (b : bool) : string :=
  if b then "true" else "false".

(** The initializer of [useState]:
    [saved ? JSON.parse(saved) : false].  A key that is not there and the
    empty text are falsy; [JSON.parse] gives back the booleans that
    [JSON_stringify] writes.  Any other text (other JSON values, or text
    on which [JSON.parse] throws) is outside this model: [None]. *)
Definition initialEnabled (s : Storage) : option bool :=
  match getItem s "soundEnabled" with
  | None => Some false
  | Some saved =>
      if (saved =? "")%string then Some false
      else if (saved =? "true")%string then Some true
      else if (saved =? "false")%string then Some false
      else None
  end.

Inductive EngineCall : Type := Init | EnableSound | DisableSound.

(** How the engine answers during one click. *)
Record Engine : Type := {
  isInitialized : bool;     (* audioEngine.isInitialized *)
  initSucceeds : bool;      (* audioEngine.init() does not throw *)
  switchSucceeds : bool     (* enableSound() / disableSound() does not *)
}.

Record Toggled : Type := {
  calls : list EngineCall;  (* the calls made to the engine, in order *)
  isEnabled : bool;         (* the state after the click *)
  storage : Storage
}.

(** [handleToggle], for the state [enabled] that the handler closes over.
    An exception of the engine is caught: nothing else happens then. *)
Definition handleToggle (enabled : bool) (engine : Engine) (s : Storage)
  : Toggled :=
  let init := if isInitialized engine then [] else [Init] in
  if negb (isInitialized engine) && negb (initSucceeds engine) then
    {| calls := init; isEnabled := enabled; storage := s |}
  else
    let switch := if enabled then DisableSound else EnableSound in
    if switchSucceeds engine then
      let nextState := negb enabled in
      {| calls := (init ++ [switch])%list;
         isEnabled := nextState;
         storage := setItem "soundEnabled" (JSON_stringify nextState) s |}
    else
      {| calls := (init ++ [switch])%list;
         isEnabled := enabled;
         storage := s |}.

(** A click goes through when the engine is or gets initialized and the
    switch of the sound succeeds. *)
Definition goesThrough (engine : Engine) : bool :=
  (isInitialized engine || initSucceeds engine) && switchSucceeds engine.

(** A series of clicks, the button being rendered again between two
    clicks. *)
Fixpoint clicks (engines : list Engine) (enabled : bool) (s : Storage)
  : bool * Storage :=
  match engines with
  | [] => (enabled, s)
  | engine :: rest =>
      let t := handleToggle enabled engine s in
      clicks rest (isEnabled t) (storage t)
  end.

End SoundButton.

(** * Properties *)

(** ** The number models *)

Lemma lt_Fin (a b : Q) : JS.lt (JS.Fin a) (JS.Fin b) = true <-> (a < b)%Q.
Proof.
  unfold JS.lt. rewrite Qlt_alt. destruct (a ?= b)%Q; intuition congruence.
Qed.

Lemma le_Fin (a b : Q) : JS.le (JS.Fin a) (JS.Fin b) = true <-> (a <= b)%Q.
Proof.
  unfold JS.le. rewrite Qle_alt. destruct (a ?= b)%Q; intuition congruence.
Qed.

Lemma lt_Fin_false (a b : Q) :
  JS.lt (JS.Fin a) (JS.Fin b) = false <-> (b <= a)%Q.
Proof.
  rewrite <- Bool.not_true_iff_false, lt_Fin. split.
  - apply Qnot_lt_le.
  - apply Qle_not_lt.
Qed.

(** On exact numbers [x >= y] excludes [x < y]. *)
Lemma exact_ge_not_lt (x y : JS.number) :
  JS.le y x = true -> JS.lt x y = false.
Proof.
  destruct x as [| | |a], y as [| | |b]; cbn; try congruence.
  intros H. apply le_Fin in H. change (JS.lt (JS.Fin a) (JS.Fin b) = false).
  now apply lt_Fin_false.
Qed.

(** On exact numbers [round (- x * 100)] is [round (x * -100)]. *)
Lemma exact_round_neg (x : JS.number) :
  JS.round (JS.mul (JS.neg x) (JS.of_Z 100))
  = JS.round (JS.mul x (JS.of_Z (-100))).
Proof.
  destruct x as [| | |q]; try reflexivity.
  unfold JS.neg, JS.mul, JS.round, JS.of_Z. do 2 f_equal.
  apply Qfloor_comp. apply Qplus_comp; [|reflexivity]. ring.
Qed.

(** The comparison of binary64 values is antisymmetric. *)
Lemma SFcompare_antisym (x y : spec_float) :
  SFcompare y x = option_map CompOpp (SFcompare x y).
Proof.
  destruct x as [s1| s1 | |s1 m1 e1], y as [s2|s2| |s2 m2 e2]; cbn;
    try reflexivity;
    try (destruct s1; reflexivity); try (destruct s2; reflexivity);
    try (destruct s1, s2; reflexivity).
  destruct s1, s2; try reflexivity;
    rewrite (Z.compare_antisym e1 e2);
    destruct (e1 ?= e2)%Z; cbn; try reflexivity;
    change (Pos.compare_cont Eq m2 m1) with (m2 ?= m1)%positive;
    change (Pos.compare_cont Eq m1 m2) with (m1 ?= m2)%positive;
    rewrite (Pos.compare_antisym m1 m2);
    destruct (m1 ?= m2)%positive; reflexivity.
Qed.

Lemma binary64_ge_not_lt (x y : spec_float) :
  SFleb y x = true -> SFltb x y = false.
Proof.
  unfold SFleb, SFltb. rewrite (SFcompare_antisym x y).
  destruct (SFcompare x y) as [[]|]; cbn; congruence.
Qed.

(** On binary64 numbers [- x * 100] is [x * -100]: the sign of a product
    is the exclusive or of the signs, and the rounding of the magnitude
    does not look at it. *)
Lemma binary64_mul_neg (x : spec_float) :
  SFmul Binary64.prec Binary64.emax (SFopp x) (Binary64.of_Z 100)
  = SFmul Binary64.prec Binary64.emax x (Binary64.of_Z (-100)).
Proof.
  change (Binary64.of_Z 100) with (S754_finite false 7036874417766400 (-46)).
  change (Binary64.of_Z (-100)) with (S754_finite true 7036874417766400 (-46)).
  destruct x as [s|s| |s m e]; unfold SFmul, SFopp; try reflexivity;
    destruct s; reflexivity.
Qed.

(** ** Binary64: the sign of [a / c - 1]

    For two valid positive binary64 values the rounded quotient [a / c]
    lies on the same side of 1 as the exact one, so that [a / c - 1] is
    negative or zero when [a < c] and positive or zero otherwise. *)

Section Binary64Signs.

Local Open Scope Z_scope.
Local Abbreviation prec := Binary64.prec.
Local Abbreviation emax := Binary64.emax.

Lemma fexp_eq (e : Z) : fexp prec emax e = Z.max (e - 53) (-1074).
Proof. reflexivity. Qed.

(** *** Shifting right *)

Lemma shr_1_m (mrs : shr_record) :
  0 <= shr_m mrs -> shr_m (shr_1 mrs) = shr_m mrs / 2.
Proof.
  destruct mrs as [m r s]; cbn [shr_m]. intros Hm.
  destruct m as [|[p|p|]|p]; cbn [shr_1 shr_m]; try lia.
  all: try reflexivity.
  - apply (Z.div_unique _ _ _ 1); lia.
  - apply (Z.div_unique _ _ _ 0); lia.
Qed.

Lemma iter_shr_1_m (p : positive) (mrs : shr_record) :
  0 <= shr_m mrs ->
  shr_m (iter_pos shr_1 p mrs) = shr_m mrs / 2 ^ Zpos p.
Proof.
  revert mrs. induction p as [p IH|p IH|]; intros mrs Hm; cbn [iter_pos].
  - assert (H1 : 0 <= shr_m (shr_1 mrs))
      by (rewrite shr_1_m by assumption; apply Z.div_pos; lia).
    assert (H2 : 0 <= shr_m (iter_pos shr_1 p (shr_1 mrs)))
      by (rewrite IH by assumption; apply Z.div_pos; lia).
    rewrite IH, IH, shr_1_m by assumption.
    rewrite !Z.div_div by lia.
    f_equal.
    replace (Zpos p~1) with (1 + Zpos p + Zpos p) by lia.
    rewrite !Z.pow_add_r by lia. change (2 ^ 1) with 2. lia.
  - assert (H2 : 0 <= shr_m (iter_pos shr_1 p mrs))
      by (rewrite IH by assumption; apply Z.div_pos; lia).
    rewrite IH, IH by assumption.
    rewrite !Z.div_div by lia.
    f_equal.
    replace (Zpos p~0) with (Zpos p + Zpos p) by lia.
    rewrite !Z.pow_add_r by lia. lia.
  - now rewrite shr_1_m.
Qed.

Lemma shr_record_of_loc_m (m : Z) (l : location) :
  shr_m (shr_record_of_loc m l) = m.
Proof. destruct l as [|[]]; reflexivity. Qed.

(** The mantissa and the exponent after [shr_fexp]. *)
Lemma shr_fexp_spec (m e : Z) (l : location) mrs e' :
  0 <= m ->
  shr_fexp prec emax m e l = (mrs, e') ->
  let n := fexp prec emax (Zdigits2 m + e) - e in
  (n <= 0 -> shr_m mrs = m /\ e' = e)
  /\ (0 < n -> shr_m mrs = m / 2 ^ n /\ e' = e + n).
Proof.
  intros Hm E n. unfold shr_fexp in E. fold n in E. unfold shr in E.
  destruct n as [|p|p] eqn:En; injection E as <- <-.
  - split; [|lia]. intros _. now rewrite shr_record_of_loc_m.
  - split; [lia|]. intros _. split; [|reflexivity].
    rewrite iter_shr_1_m; rewrite shr_record_of_loc_m; auto.
  - split; [|lia]. intros _. now rewrite shr_record_of_loc_m.
Qed.

(** *** The number of digits *)

Lemma digits2_pos_bounds (p : positive) :
  2 ^ (Zpos (digits2_pos p) - 1) <= Zpos p < 2 ^ Zpos (digits2_pos p).
Proof.
  induction p as [p IH|p IH|]; cbn [digits2_pos].
  - rewrite Pos2Z.inj_succ.
    replace (Z.succ (Zpos (digits2_pos p)) - 1)
      with (Z.succ (Zpos (digits2_pos p) - 1)) by lia.
    rewrite !Z.pow_succ_r by lia. lia.
  - rewrite Pos2Z.inj_succ.
    replace (Z.succ (Zpos (digits2_pos p)) - 1)
      with (Z.succ (Zpos (digits2_pos p) - 1)) by lia.
    rewrite !Z.pow_succ_r by lia. lia.
  - cbn. lia.
Qed.

Lemma Zdigits2_bounds (m : Z) :
  0 < m -> 0 < Zdigits2 m /\ 2 ^ (Zdigits2 m - 1) <= m < 2 ^ Zdigits2 m.
Proof.
  destruct m as [|p|p]; try lia. intros _. cbn [Zdigits2].
  split; [lia|]. apply digits2_pos_bounds.
Qed.

(** A number below [2 ^ k] has at most [k] digits. *)
Lemma Zdigits2_le (m k : Z) : 0 <= m -> 0 <= k -> m < 2 ^ k -> Zdigits2 m <= k.
Proof.
  intros Hm Hk H. destruct (Z.eq_dec m 0) as [->|Hz]; [cbn; lia|].
  destruct (Zdigits2_bounds m) as [Hd [L _]]; [lia|].
  destruct (Z_le_gt_dec (Zdigits2 m) k) as [|G]; [assumption|].
  assert (2 ^ k <= 2 ^ (Zdigits2 m - 1)) by (apply Z.pow_le_mono_r; lia).
  lia.
Qed.

(** *** Rounding and the value 1 *)

Lemma shr_fexp_ge1 (m e : Z) (l : location) mrs e' :
  shr_fexp prec emax m e l = (mrs, e') -> ge1 m e -> ge1 (shr_m mrs) e'.
Proof.
  intros E [Hm Hp].
  destruct (shr_fexp_spec m e l mrs e' ltac:(lia) E) as [S0 S1].
  destruct (Z_le_gt_dec (fexp prec emax (Zdigits2 m + e) - e) 0) as [N|N].
  - destruct (S0 N) as [-> ->]. now split.
  - destruct (S1 ltac:(lia)) as [-> ->].
    set (n := fexp prec emax (Zdigits2 m + e) - e) in *.
    assert (P2 : 0 < 2 ^ n) by (apply Z.pow_pos_nonneg; lia).
    unfold ge1. destruct (Z_le_gt_dec (e + n) 0) as [L|G].
    + assert (Q : 2 ^ (- e) = 2 ^ n * 2 ^ (- (e + n))).
      { rewrite <- Z.pow_add_r by lia. f_equal. lia. }
      assert (1 <= 2 ^ (- (e + n))).
      { assert (0 < 2 ^ (- (e + n))) by (apply Z.pow_pos_nonneg; lia). lia. }
      assert (2 ^ (- (e + n)) <= m / 2 ^ n).
      { apply Z.div_le_lower_bound; [assumption|]. lia. }
      split; lia.
    + rewrite (Z.pow_neg_r 2 (- (e + n))) by lia.
      destruct (Zdigits2_bounds m Hm) as [Hd [Lo _]].
      assert (n = Zdigits2 m - 53).
      { unfold n in *. rewrite fexp_eq in *. lia. }
      assert (2 ^ n <= 2 ^ (Zdigits2 m - 1))
        by (apply Z.pow_le_mono_r; lia).
      assert (1 <= m / 2 ^ n).
      { apply Z.div_le_lower_bound; [assumption|]. lia. }
      split; lia.
Qed.

Lemma shr_fexp_le1 (m e : Z) (l : location) mrs e' :
  shr_fexp prec emax m e l = (mrs, e') -> le1 m e -> le1 (shr_m mrs) e'.
Proof.
  intros E (Hm & He & Hp).
  destruct (shr_fexp_spec m e l mrs e' Hm E) as [S0 S1].
  destruct (Z_le_gt_dec (fexp prec emax (Zdigits2 m + e) - e) 0) as [N|N].
  - destruct (S0 N) as [-> ->]. now repeat split.
  - destruct (S1 ltac:(lia)) as [-> ->].
    set (n := fexp prec emax (Zdigits2 m + e) - e) in *.
    assert (P2 : 0 < 2 ^ n) by (apply Z.pow_pos_nonneg; lia).
    assert (D : Zdigits2 m <= - e + 1).
    { apply Zdigits2_le; [lia|lia|].
      rewrite Z.pow_add_r by lia. change (2 ^ 1) with 2.
      assert (0 < 2 ^ (- e)) by (apply Z.pow_pos_nonneg; lia). lia. }
    assert (L : e + n <= 0) by (unfold n in *; rewrite fexp_eq in *; lia).
    assert (Q : 2 ^ (- e) = 2 ^ n * 2 ^ (- (e + n))).
    { rewrite <- Z.pow_add_r by lia. f_equal. lia. }
    repeat split.
    + apply Z.div_pos; lia.
    + exact L.
    + apply Z.div_le_upper_bound; [assumption|]. lia.
Qed.

Lemma shr_fexp_below1 (m e : Z) (l : location) mrs e' :
  shr_fexp prec emax m e l = (mrs, e') ->
  below1 m e -> below1 (shr_m mrs) e'.
Proof.
  intros E (Hm & He & Hp).
  destruct (shr_fexp_spec m e l mrs e' Hm E) as [S0 S1].
  destruct (Z_le_gt_dec (fexp prec emax (Zdigits2 m + e) - e) 0) as [N|N].
  - destruct (S0 N) as [-> ->]. now repeat split.
  - destruct (S1 ltac:(lia)) as [-> ->].
    set (n := fexp prec emax (Zdigits2 m + e) - e) in *.
    assert (P2 : 0 < 2 ^ n) by (apply Z.pow_pos_nonneg; lia).
    assert (D : Zdigits2 m <= - e) by (apply Zdigits2_le; lia).
    assert (L : e + n <= 0) by (unfold n in *; rewrite fexp_eq in *; lia).
    assert (Q : 2 ^ (- e) = 2 ^ n * 2 ^ (- (e + n))).
    { rewrite <- Z.pow_add_r by lia. f_equal. lia. }
    assert (m / 2 ^ n < 2 ^ (- (e + n))).
    { apply Z.div_lt_upper_bound; [assumption|]. lia. }
    repeat split.
    + apply Z.div_pos; lia.
    + exact L.
    + lia.
Qed.

Lemma round_nearest_even_bounds (m : Z) (l : location) :
  m <= round_nearest_even m l <= m + 1.
Proof.
  destruct l as [|[]]; cbn; try lia. destruct (Z.even m); lia.
Qed.

Lemma binary_round_aux_signed (s : bool) (m e : Z) (l : location) :
  0 <= m -> signed s (binary_round_aux prec emax s m e l).
Proof.
  intros Hm. unfold binary_round_aux.
  destruct (shr_fexp prec emax m e l) as [mrs1 e1] eqn:E1.
  destruct (shr_fexp prec emax _ e1 loc_Exact) as [mrs2 e2] eqn:E2.
  pose proof (round_nearest_even_bounds (shr_m mrs1)
                (loc_of_shr_record mrs1)) as B.
  assert (0 <= shr_m mrs1).
  { destruct (shr_fexp_spec m e l mrs1 e1 Hm E1) as [S0 S1].
    destruct (Z_le_gt_dec (fexp prec emax (Zdigits2 m + e) - e) 0) as [N|N].
    - destruct (S0 N) as [-> _]. assumption.
    - destruct (S1 ltac:(lia)) as [-> _]. apply Z.div_pos; [assumption|].
      apply Z.pow_pos_nonneg; lia. }
  assert (Hr : 0 <= round_nearest_even (shr_m mrs1) (loc_of_shr_record mrs1))
    by lia.
  assert (0 <= shr_m mrs2).
  { destruct (shr_fexp_spec _ e1 loc_Exact mrs2 e2 Hr E2) as [S0 S1].
    match type of S0 with ?n <= 0 -> _ =>
      destruct (Z_le_gt_dec n 0) as [N|N] end.
    - destruct (S0 N) as [-> _]. lia.
    - destruct (S1 ltac:(lia)) as [-> _]. apply Z.div_pos; [lia|].
      apply Z.pow_pos_nonneg; lia. }
  destruct (shr_m mrs2) as [|p|p]; cbn [signed]; try lia; auto.
  destruct (e2 <=? emax - prec); reflexivity.
Qed.

(** A value of at least 1 is rounded to a value of at least 1. *)
Lemma binary_round_aux_ge1 (s : bool) (m e : Z) (l : location) :
  ge1 m e ->
  match binary_round_aux prec emax s m e l with
  | S754_infinity s' => s' = s
  | S754_finite s' m' e' => s' = s /\ ge1 (Zpos m') e'
  | _ => False
  end.
Proof.
  intros G. unfold binary_round_aux.
  destruct (shr_fexp prec emax m e l) as [mrs1 e1] eqn:E1.
  destruct (shr_fexp prec emax _ e1 loc_Exact) as [mrs2 e2] eqn:E2.
  pose proof (round_nearest_even_bounds (shr_m mrs1)
                (loc_of_shr_record mrs1)) as B.
  pose proof (shr_fexp_ge1 _ _ _ _ _ E1 G) as G1.
  assert (G1' : ge1 (round_nearest_even (shr_m mrs1)
                       (loc_of_shr_record mrs1)) e1)
    by (destruct G1; split; lia).
  pose proof (shr_fexp_ge1 _ _ _ _ _ E2 G1') as G2.
  destruct (shr_m mrs2) as [|p|p]; try (destruct G2; lia).
  destruct (e2 <=? emax - prec); auto.
Qed.

(** A value whose upper neighbour is at most 1 is rounded to a value of
    at most 1. *)
Lemma binary_round_aux_below1 (s : bool) (m e : Z) (l : location) :
  below1 m e ->
  match binary_round_aux prec emax s m e l with
  | S754_zero s' => s' = s
  | S754_finite s' m' e' => s' = s /\ le1 (Zpos m') e'
  | _ => False
  end.
Proof.
  intros G. unfold binary_round_aux.
  destruct (shr_fexp prec emax m e l) as [mrs1 e1] eqn:E1.
  destruct (shr_fexp prec emax _ e1 loc_Exact) as [mrs2 e2] eqn:E2.
  pose proof (round_nearest_even_bounds (shr_m mrs1)
                (loc_of_shr_record mrs1)) as B.
  pose proof (shr_fexp_below1 _ _ _ _ _ E1 G) as G1.
  assert (G1' : le1 (round_nearest_even (shr_m mrs1)
                       (loc_of_shr_record mrs1)) e1)
    by (destruct G1 as (? & ? & ?); repeat split; lia).
  pose proof (shr_fexp_le1 _ _ _ _ _ E2 G1') as G2.
  destruct (shr_m mrs2) as [|p|p]; try (destruct G2; lia); auto.
  destruct G2 as (? & ? & ?).
  replace (e2 <=? emax - prec) with true
    by (symmetry; apply Z.leb_le; unfold emax, prec; lia).
  repeat split; auto.
Qed.

(** *** The order of two positive values *)

Lemma bounded_digits (m : positive) (e : Z) :
  bounded prec emax m e = true ->
  Zpos (digits2_pos m) <= 53
  /\ (-1074 <= e)
  /\ (-1074 < e -> Zpos (digits2_pos m) = 53).
Proof.
  unfold bounded, canonical_mantissa. intros H.
  apply andb_true_iff in H as [H _]. apply Z.eqb_eq in H.
  rewrite fexp_eq in H. lia.
Qed.

(** On valid positive values [SFltb] is the order of the values. *)
Lemma SFltb_value_lt (ma : positive) (ea : Z) (mc : positive) (ec : Z) :
  bounded prec emax ma ea = true ->
  bounded prec emax mc ec = true ->
  if SFltb (S754_finite false ma ea) (S754_finite false mc ec)
  then value_lt ma ea mc ec
  else ~ value_lt ma ea mc ec.
Proof.
  intros Ba Bc.
  destruct (bounded_digits ma ea Ba) as (Da & Ea & Na).
  destruct (bounded_digits mc ec Bc) as (Dc & Ec & Nc).
  destruct (digits2_pos_bounds ma) as [La Ua].
  destruct (digits2_pos_bounds mc) as [Lc Uc].
  assert (Ua' : Zpos ma < 2 ^ 53).
  { eapply Z.lt_le_trans; [exact Ua|]. apply Z.pow_le_mono_r; lia. }
  assert (Uc' : Zpos mc < 2 ^ 53).
  { eapply Z.lt_le_trans; [exact Uc|]. apply Z.pow_le_mono_r; lia. }
  unfold SFltb, SFcompare, value_lt, scaled.
  destruct (Z.compare_spec ea ec) as [E|L|G].
  - subst ec. rewrite Z.min_id, Z.sub_diag. change (2 ^ 0) with 1.
    change (Pos.compare_cont Eq ma mc) with (ma ?= mc)%positive.
    destruct (Pos.compare_spec ma mc); lia.
  - rewrite Z.min_l, Z.sub_diag by lia. change (2 ^ 0) with 1.
    rewrite (Nc ltac:(lia)) in Lc. change (2 ^ (53 - 1)) with (2 ^ 52) in Lc.
    assert (2 ^ 1 <= 2 ^ (ec - ea)) by (apply Z.pow_le_mono_r; lia).
    change (2 ^ 1) with 2 in *. change (2 ^ 53) with (2 * 2 ^ 52) in *. nia.
  - rewrite Z.min_r, Z.sub_diag by lia. change (2 ^ 0) with 1.
    rewrite (Na ltac:(lia)) in La. change (2 ^ (53 - 1)) with (2 ^ 52) in La.
    assert (2 ^ 1 <= 2 ^ (ea - ec)) by (apply Z.pow_le_mono_r; lia).
    change (2 ^ 1) with 2 in *. change (2 ^ 53) with (2 * 2 ^ 52) in *. nia.
Qed.

(** *** The quotient of two positive values *)

Lemma SFdiv_core_binary_spec (ma : positive) (ea : Z) (mc : positive) (ec : Z) :
  let e' := Z.min (fexp prec emax
                     (Zdigits2 (Zpos ma) + ea - (Zdigits2 (Zpos mc) + ec)))
                  (ea - ec) in
  let s := ea - ec - e' in
  exists l,
    SFdiv_core_binary prec emax (Zpos ma) ea (Zpos mc) ec
    = (Zpos ma * 2 ^ s / Zpos mc, e', l).
Proof.
  intros e' s. unfold SFdiv_core_binary. fold e'. fold s.
  assert (Hs : 0 <= s) by (unfold s, e'; lia).
  assert (E : match s with
              | Zpos _ => Z.shiftl (Zpos ma) s
              | Z0 => Zpos ma
              | Zneg _ => 0
              end = Zpos ma * 2 ^ s).
  { destruct s as [|p|p] eqn:Es; try lia.
    now rewrite Z.shiftl_mul_pow2 by lia. }
  rewrite E. unfold Z.div.
  destruct (Z.div_eucl (Zpos ma * 2 ^ s) (Zpos mc)) as [q r].
  eexists. reflexivity.
Qed.

(** The truncated quotient of [a >= c] is at least 1. *)
Lemma SFdiv_core_binary_ge1 (ma : positive) (ea : Z) (mc : positive) (ec : Z) :
  ~ value_lt ma ea mc ec ->
  let '(q, e', _) := SFdiv_core_binary prec emax (Zpos ma) ea (Zpos mc) ec in
  ge1 q e'.
Proof.
  intros H. destruct (SFdiv_core_binary_spec ma ea mc ec) as [l ->].
  set (E := Zdigits2 (Zpos ma) + ea - (Zdigits2 (Zpos mc) + ec)).
  set (e' := Z.min (fexp prec emax E) (ea - ec)).
  set (s := ea - ec - e').
  assert (Hs : 0 <= s) by (unfold s, e'; lia).
  unfold value_lt, scaled in H. unfold ge1.
  destruct (digits2_pos_bounds ma) as [La Ua].
  destruct (digits2_pos_bounds mc) as [Lc Uc].
  assert (P : 0 < 2 ^ s) by (apply Z.pow_pos_nonneg; lia).
  destruct (Z_le_gt_dec e' 0) as [N|N].
  - assert (Pe : 0 < 2 ^ (- e')) by (apply Z.pow_pos_nonneg; lia).
    assert (B : Zpos mc * 2 ^ (- e') <= Zpos ma * 2 ^ s).
    { destruct (Z_le_gt_dec ec ea) as [O|O].
      - rewrite Z.min_r, Z.sub_diag in H by lia. change (2 ^ 0) with 1 in H.
        replace s with ((ea - ec) + (- e')) by (unfold s; lia).
        rewrite Z.pow_add_r by lia. nia.
      - rewrite Z.min_l, Z.sub_diag in H by lia. change (2 ^ 0) with 1 in H.
        replace (- e') with ((ec - ea) + s) by (unfold s; lia).
        rewrite Z.pow_add_r by lia. nia. }
    assert (2 ^ (- e') <= Zpos ma * 2 ^ s / Zpos mc)
      by (apply Z.div_le_lower_bound; lia).
    lia.
  - rewrite (Z.pow_neg_r 2 (- e')) by lia.
    assert (F : e' <= E - 53).
    { unfold e' in *. rewrite fexp_eq in *. lia. }
    assert (B : Zpos mc <= Zpos ma * 2 ^ s).
    { cbn [Zdigits2] in E.
      assert (2 ^ Zpos (digits2_pos mc)
              <= 2 ^ (Zpos (digits2_pos ma) - 1 + s)).
      { apply Z.pow_le_mono_r; [lia|]. unfold s, E in *. lia. }
      rewrite Z.pow_add_r in * by lia. nia. }
    assert (1 <= Zpos ma * 2 ^ s / Zpos mc)
      by (apply Z.div_le_lower_bound; lia).
    lia.
Qed.

(** The truncated quotient of [a < c], and its upper neighbour, are at
    most 1. *)
Lemma SFdiv_core_binary_below1
    (ma : positive) (ea : Z) (mc : positive) (ec : Z) :
  value_lt ma ea mc ec ->
  let '(q, e', _) := SFdiv_core_binary prec emax (Zpos ma) ea (Zpos mc) ec in
  below1 q e'.
Proof.
  intros H. destruct (SFdiv_core_binary_spec ma ea mc ec) as [l ->].
  set (E := Zdigits2 (Zpos ma) + ea - (Zdigits2 (Zpos mc) + ec)).
  set (e' := Z.min (fexp prec emax E) (ea - ec)).
  set (s := ea - ec - e').
  assert (Hs : 0 <= s) by (unfold s, e'; lia).
  unfold value_lt, scaled in H. unfold below1.
  destruct (digits2_pos_bounds ma) as [La Ua].
  destruct (digits2_pos_bounds mc) as [Lc Uc].
  assert (P : 0 < 2 ^ s) by (apply Z.pow_pos_nonneg; lia).
  set (t := Z.min ea ec) in *.
  assert (HE : E <= 0).
  { cbn [Zdigits2] in E.
    destruct (Z_le_gt_dec E 0) as [|G]; [assumption|exfalso].
    assert (2 ^ (Zpos (digits2_pos mc) + (ec - t))
            <= 2 ^ (Zpos (digits2_pos ma) - 1 + (ea - t)))
      by (apply Z.pow_le_mono_r; unfold E, t in *; lia).
    rewrite !Z.pow_add_r in * by (unfold t; lia).
    assert (0 < 2 ^ (ea - t)) by (apply Z.pow_pos_nonneg; unfold t; lia).
    assert (0 < 2 ^ (ec - t)) by (apply Z.pow_pos_nonneg; unfold t; lia).
    nia. }
  assert (N : e' <= 0) by (unfold e'; rewrite fexp_eq; lia).
  assert (Pe : 0 < 2 ^ (- e')) by (apply Z.pow_pos_nonneg; lia).
  assert (B : Zpos ma * 2 ^ s < Zpos mc * 2 ^ (- e')).
  { unfold t in *. destruct (Z_le_gt_dec ec ea) as [O|O].
    - rewrite Z.min_r, Z.sub_diag in H by lia. change (2 ^ 0) with 1 in H.
      replace s with ((ea - ec) + (- e')) by (unfold s; lia).
      rewrite Z.pow_add_r by lia. nia.
    - rewrite Z.min_l, Z.sub_diag in H by lia. change (2 ^ 0) with 1 in H.
      replace (- e') with ((ec - ea) + s) by (unfold s; lia).
      rewrite Z.pow_add_r by lia. nia. }
  assert (Zpos ma * 2 ^ s / Zpos mc < 2 ^ (- e'))
    by (apply Z.div_lt_upper_bound; lia).
  assert (0 <= Zpos ma * 2 ^ s / Zpos mc) by (apply Z.div_pos; lia).
  lia.
Qed.

(** *** Signs through the arithmetic of the card *)

Lemma one_eq : Binary64.of_Z 1 = S754_finite false 4503599627370496 (-52).
Proof. reflexivity. Qed.

Lemma iter_xO (m d : positive) :
  Zpos (Pos.iter xO m d) = Zpos m * 2 ^ Zpos d.
Proof.
  induction d as [|d IH] using Pos.peano_ind.
  - cbn. lia.
  - rewrite Pos.iter_succ, Pos2Z.inj_succ, Z.pow_succ_r by lia.
    rewrite Pos2Z.inj_xO, IH. lia.
Qed.

Lemma shl_align_fst (m : positive) (e e' : Z) :
  e' <= e -> Zpos (fst (shl_align m e e')) = Zpos m * 2 ^ (e - e').
Proof.
  intros H. unfold shl_align.
  destruct (e' - e) as [|d|d] eqn:D; cbn [fst].
  - replace (e - e') with 0 by lia. cbn. lia.
  - lia.
  - rewrite iter_xO. f_equal. f_equal. lia.
Qed.

Lemma binary_round_signed (s : bool) (m : positive) (e : Z) :
  signed s (binary_round prec emax s m e).
Proof.
  unfold binary_round. destruct (shl_align m e _) as [mz ez].
  apply binary_round_aux_signed. lia.
Qed.

(** The sign of [x - 1] for a positive [x] on either side of 1. *)
Lemma SFsub_one_ge1 (m : positive) (e : Z) :
  ge1 (Zpos m) e ->
  signed false (SFsub prec emax (S754_finite false m e) (Binary64.of_Z 1)).
Proof.
  intros [_ G]. rewrite one_eq. unfold SFsub. cbn [cond_Zopp].
  set (ez := Z.min e (-52)).
  rewrite !shl_align_fst by (unfold ez; lia).
  set (D := Zpos m * 2 ^ (e - ez) - 4503599627370496 * 2 ^ (-52 - ez)).
  assert (HD : 0 <= D).
  { unfold D, ez. destruct (Z_le_gt_dec e (-52)) as [L|L].
    - rewrite Z.min_l, Z.sub_diag by lia. change (2 ^ 0) with 1.
      replace (- e) with (52 + (-52 - e)) in G by lia.
      rewrite Z.pow_add_r in G by lia.
      change (2 ^ 52) with 4503599627370496 in G. lia.
    - rewrite Z.min_r, Z.sub_diag by lia. change (2 ^ 0) with 1.
      destruct (Z_le_gt_dec e 0) as [L0|L0].
      + replace 52 with ((- e) + (e - -52)) in * by lia.
        change 4503599627370496 with (2 ^ 52).
        replace 52 with ((- e) + (e - -52)) at 1 by lia.
        rewrite Z.pow_add_r by lia.
        assert (0 < 2 ^ (e - -52)) by (apply Z.pow_pos_nonneg; lia).
        nia.
      + assert (2 ^ 52 <= 2 ^ (e - -52)) by (apply Z.pow_le_mono_r; lia).
        change (2 ^ 52) with 4503599627370496 in *. nia. }
  unfold binary_normalize. destruct D as [|p|p]; try lia.
  - exact I.
  - apply binary_round_signed.
Qed.

Lemma SFsub_one_le1 (m : positive) (e : Z) :
  le1 (Zpos m) e ->
  signed true (SFsub prec emax (S754_finite false m e) (Binary64.of_Z 1)).
Proof.
  intros (_ & E0 & G). rewrite one_eq. unfold SFsub. cbn [cond_Zopp].
  set (ez := Z.min e (-52)).
  rewrite !shl_align_fst by (unfold ez; lia).
  set (D := Zpos m * 2 ^ (e - ez) - 4503599627370496 * 2 ^ (-52 - ez)).
  assert (HD : D <= 0).
  { unfold D, ez. destruct (Z_le_gt_dec e (-52)) as [L|L].
    - rewrite Z.min_l, Z.sub_diag by lia. change (2 ^ 0) with 1.
      replace (- e) with (52 + (-52 - e)) in G by lia.
      rewrite Z.pow_add_r in G by lia.
      change (2 ^ 52) with 4503599627370496 in G. lia.
    - rewrite Z.min_r, Z.sub_diag by lia. change (2 ^ 0) with 1.
      change 4503599627370496 with (2 ^ 52).
      replace 52 with ((- e) + (e - -52)) at 1 by lia.
      rewrite Z.pow_add_r by lia.
      assert (0 < 2 ^ (e - -52)) by (apply Z.pow_pos_nonneg; lia).
      nia. }
  unfold binary_normalize. destruct D as [|p|p]; try lia.
  - exact I.
  - apply binary_round_signed.
Qed.

(** The sign of a product with a finite factor. *)
Lemma SFmul_signed (s sk : bool) (x : spec_float) (mk : positive) (ek : Z) :
  signed s x ->
  signed (xorb s sk) (SFmul prec emax x (S754_finite sk mk ek)).
Proof.
  destruct x as [sx|sx| |sx mx ex]; cbn [signed SFmul]; intros H;
    try exact I; try contradiction; subst.
  - reflexivity.
  - apply binary_round_aux_signed. lia.
Qed.

(** A value that is not negative compares as [>= 0]. *)
Lemma signed_false_ge_zero (x : spec_float) :
  signed false x -> SFleb (S754_zero false) x = true.
Proof.
  destruct x as [sx|sx| |sx mx ex]; cbn; intros H;
    try reflexivity; try contradiction; now subst.
Qed.

(** [x - 1] for the quotient [x] of two valid positive values. *)
Lemma SFdiv_sub_one_sign (ma : positive) (ea : Z) (mc : positive) (ec : Z) :
  bounded prec emax ma ea = true ->
  bounded prec emax mc ec = true ->
  let a := S754_finite false ma ea in
  let c := S754_finite false mc ec in
  signed (SFltb a c) (SFsub prec emax (SFdiv prec emax a c) (Binary64.of_Z 1)).
Proof.
  intros Ba Bc a c. pose proof (SFltb_value_lt ma ea mc ec Ba Bc) as O.
  fold a c in O. unfold a at 2, c at 2. unfold SFdiv.
  destruct (SFltb a c).
  - pose proof (SFdiv_core_binary_below1 ma ea mc ec O) as B.
    destruct (SFdiv_core_binary prec emax _ ea _ ec) as [[q e'] l].
    pose proof (binary_round_aux_below1 (xorb false false) q e' l B) as R.
    destruct (binary_round_aux prec emax _ q e' l) as [s'|s'| |s' m' e''];
      try contradiction.
    + subst s'. rewrite one_eq. reflexivity.
    + destruct R as [-> R]. now apply SFsub_one_le1.
  - pose proof (SFdiv_core_binary_ge1 ma ea mc ec O) as B.
    destruct (SFdiv_core_binary prec emax _ ea _ ec) as [[q e'] l].
    pose proof (binary_round_aux_ge1 (xorb false false) q e' l B) as R.
    destruct (binary_round_aux prec emax _ q e' l) as [s'|s'| |s' m' e''];
      try contradiction.
    + subst s'. rewrite one_eq. reflexivity.
    + destruct R as [-> R]. now apply SFsub_one_ge1.
Qed.

Lemma SFopp_signed (s : bool) (x : spec_float) :
  signed s x -> signed (negb s) (SFopp x).
Proof.
  destruct x as [sx|sx| |sx mx ex]; cbn; intros H; auto; now subst.
Qed.

(** [Math.round] keeps a value that is not negative so. *)
Lemma round_signed_false (x : spec_float) :
  signed false x -> signed false (Binary64.round x).
Proof.
  destruct x as [sx|sx| |sx m e]; cbn [signed Binary64.round]; auto.
  intros ->. destruct (0 <=? e) eqn:E0; [reflexivity|]. cbn [cond_Zopp].
  apply Z.leb_gt in E0.
  assert (P : 0 < 2 ^ (- e)) by (apply Z.pow_pos_nonneg; lia).
  assert (H : 0 <= (2 * Zpos m + 2 ^ (- e)) / (2 * 2 ^ (- e)))
    by (apply Z.div_pos; lia).
  unfold binary_normalize.
  destruct ((2 * Zpos m + 2 ^ (- e)) / (2 * 2 ^ (- e))) as [|p|p];
    try lia.
  - exact I.
  - apply binary_round_signed.
Qed.

(** On a value that is not negative [Math.round] rounds half away from
    zero. *)
Lemma round_half_away_signed_false (x : spec_float) :
  signed false x -> Binary64.round x = Binary64.round_half_away x.
Proof.
  destruct x as [sx|sx| |sx m e]; cbn [signed]; try reflexivity.
  now intros ->.
Qed.

(** The integer chosen by [Binary64.round_half_away] is the one that
    [round_half_away_from_zero] chooses for the exact value. *)
Lemma half_away_integer_exact (s : bool) (m : positive) (e : Z) :
  e < 0 ->
  Binary64.half_away_integer s m e
  = round_half_away_from_zero
      (inject_Z (cond_Zopp s (Zpos m)) / inject_Z (2 ^ (- e)))%Q.
Proof.
  intros He. unfold Binary64.half_away_integer.
  assert (P : 0 < 2 ^ (- e)) by (apply Z.pow_pos_nonneg; lia).
  destruct (2 ^ (- e)) as [|d|d] eqn:D; try lia.
  assert (F : Qfloor ((Zpos m # d) + (1 # 2))
              = (2 * Zpos m + Zpos d) / (2 * Zpos d)).
  { transitivity (Qfloor ((2 * Zpos m + Zpos d) # (2 * d))).
    - apply Qfloor_comp. unfold Qeq, Qplus. cbn [Qnum Qden]. lia.
    - reflexivity. }
  assert (V : (0 < Zpos m # d)%Q) by (unfold Qlt; cbn; lia).
  assert (V' : (0 < inject_Z (Zpos m) / inject_Z (Zpos d))%Q)
    by now rewrite <- (Qmake_Qdiv (Zpos m) d).
  assert (Nz : ~ (inject_Z (Zpos d) == 0)%Q) by (unfold Qeq; cbn; lia).
  unfold round_half_away_from_zero. destruct s; cbn [cond_Zopp].
  - rewrite inject_Z_opp.
    destruct (Qle_bool 0 (- inject_Z (Zpos m) / inject_Z (Zpos d))) eqn:B.
    + apply Qle_bool_iff in B. exfalso. apply (Qlt_irrefl 0).
      eapply Qlt_le_trans; [exact V'|].
      apply (Qopp_le_compat 0) in B.
      setoid_replace (inject_Z (Zpos m) / inject_Z (Zpos d))%Q
        with (- (- inject_Z (Zpos m) / inject_Z (Zpos d)))%Q
        by (field; exact Nz).
      exact B.
    + f_equal. rewrite <- F. apply Qfloor_comp.
      rewrite (Qmake_Qdiv (Zpos m) d). field. exact Nz.
  - replace (Qle_bool 0 (inject_Z (Zpos m) / inject_Z (Zpos d))) with true
      by (symmetry; apply Qle_bool_iff; now apply Qlt_le_weak).
    rewrite <- F. apply Qfloor_comp. now rewrite (Qmake_Qdiv (Zpos m) d).
Qed.

(** 2.5 is rounded to 3 by both roundings, -2.5 to -2 by [Math.round] and
    to -3 by the rounding half away from zero, and the largest value
    below 0.5 is rounded to 0. *)
Example round_ties :
  Binary64.round (binary_normalize prec emax 5 (-1) false) = Binary64.of_Z 3
  /\ Binary64.round_half_away (binary_normalize prec emax 5 (-1) false)
     = Binary64.of_Z 3
  /\ Binary64.round (binary_normalize prec emax (-5) (-1) false)
     = Binary64.of_Z (-2)
  /\ Binary64.round_half_away (binary_normalize prec emax (-5) (-1) false)
     = Binary64.of_Z (-3)
  /\ Binary64.round (S754_finite false 9007199254740991 (-54))
     = S754_zero false.
Proof. repeat split. Qed.

(** What the card rounds is never negative when the two times are valid,
    finite and positive. *)
Lemma unrounded_signed_false (a c : spec_float) :
  Binary64.positive_finite a = true ->
  Binary64.positive_finite c = true ->
  signed false
    (SFmul prec emax (SFsub prec emax (SFdiv prec emax a c) (Binary64.of_Z 1))
       (Binary64.of_Z (if SFltb a c then -100 else 100))).
Proof.
  destruct a as [| | |[] ma ea]; try discriminate.
  destruct c as [| | |[] mc ec]; try discriminate.
  cbn [Binary64.positive_finite]. intros Ba Bc.
  pose proof (SFdiv_sub_one_sign ma ea mc ec Ba Bc) as S. cbv zeta in S.
  destruct (SFltb _ _).
  - change (Binary64.of_Z (-100))
      with (S754_finite true 7036874417766400 (-46)).
    now apply (SFmul_signed true true).
  - change (Binary64.of_Z 100)
      with (S754_finite false 7036874417766400 (-46)).
    now apply (SFmul_signed false false).
Qed.

End Binary64Signs.

(** ** The comparison block *)

Section Comparator.

Context {N : Type} {HN : Number N}.

(** When the block is rendered, the three guards held and the block is the
    one of the branch chosen by [<]. *)
Lemma compare_Some_inv (r b : MetricsRecord N) (res : Comparison N) :
  compare r b = Some res ->
  algorithmId r <> algorithmId b
  /\ (time (record r) >? num 0) = true
  /\ res = if timeMs r <? timeMs b
           then {| direction := faster;
                   percent :=
                     Math_round ((timeMs r / timeMs b - num 1) * num (-100)) |}
           else {| direction := slower;
                   percent :=
                     Math_round ((timeMs r / timeMs b - num 1) * num 100) |}.
Proof.
  unfold compare, RankingCard, renderComparison, timeMs; cbn.
  destruct (String.eqb_spec (algorithmId r) (algorithmId b)) as [E|E]; cbn;
    [discriminate|].
  destruct (js_lt (num 0) (time (record r))); [|discriminate].
  destruct (js_lt (parseFloat (time (record r)))
              (parseFloat (time (record b))));
    intros [= <-]; auto.
Qed.

(** A candidate whose time is not strictly positive gets no block. *)
Lemma compare_unmeasured_candidate (r b : MetricsRecord N) :
  (time (record r) >? num 0) = false -> compare r b = None.
Proof.
  unfold compare, RankingCard, renderComparison; cbn.
  intros ->. now destruct (negb _).
Qed.

(** No block is rendered exactly when the two algorithms are the same or
    the time of the candidate is not strictly positive; the time of the
    baseline plays no part. *)
Lemma compare_None_iff (r b : MetricsRecord N) :
  compare r b = None
  <-> algorithmId r = algorithmId b \/ (time (record r) >? num 0) = false.
Proof.
  unfold compare, RankingCard, renderComparison; cbn.
  destruct (String.eqb_spec (algorithmId r) (algorithmId b)) as [E|E]; cbn.
  - intuition.
  - destruct (js_lt (num 0) (time (record r))).
    + destruct (js_lt _ _); intuition discriminate.
    + intuition.
Qed.

Hypothesis ge_not_lt : forall x y : N, (x >=? y) = true -> (x <? y) = false.
Hypothesis round_neg :
  forall x : N, Math_round (- x * num 100) = Math_round (x * num (-100)).

Lemma formula_of_compare (r b : MetricsRecord N) (res : Comparison N) :
  compare r b = Some res ->
  ((timeMs r <? timeMs b) = true ->
   direction res = faster
   /\ percent res = Math_round (- (timeMs r / timeMs b - num 1) * num 100))
  /\ ((timeMs r >=? timeMs b) = true ->
      direction res = slower
      /\ percent res = Math_round ((timeMs r / timeMs b - num 1) * num 100)).
Proof.
  intros H. apply compare_Some_inv in H as (_ & _ & ->). split.
  - intros ->. cbn. now rewrite round_neg.
  - intros Hge. rewrite (ge_not_lt _ _ Hge). now cbn.
Qed.

End Comparator.

(** C1 does not hold of the code: with a baseline whose time is 0 and a
    candidate of positive time, the block is rendered all the same;
    the division by zero makes it read "Infinity% slower", on binary64
    numbers and on exact ones. *)
Theorem compare_zero_baseline_renders :
  compare (run "merge" (Binary64.of_Z 140)) (run "quick" (Binary64.of_Z 0))
  = Some {| direction := slower; percent := S754_infinity false |}
  /\ compare (run "merge" (JS.of_Z 140)) (run "quick" (JS.of_Z 0))
     = Some {| direction := slower; percent := JS.PosInf |}.
Proof. split; vm_compute; reflexivity. Qed.

(** The half of C1 that the code does implement: a candidate whose time is
    zero, negative or NaN gets no comparison, whatever the baseline. *)
Lemma compare_candidate_not_positive
    (r b : MetricsRecord Binary64.number) :
  ((timeMs r <=? num 0) = true \/ timeMs r = S754_nan) -> compare r b = None.
Proof.
  intros H. apply compare_unmeasured_candidate. unfold timeMs in H.
  destruct (time (record r)) as [s|s| |s m e]; try reflexivity;
    destruct H as [H|H]; try discriminate H; destruct s;
    try reflexivity; discriminate H.
Qed.

(** C2: when a comparison is produced for records of distinct algorithms,
    a candidate time below the baseline time gives [faster] with percent
    [round (- (r / b - 1) * 100)], and a candidate time at or above it gives
    [slower] with percent [round ((r / b - 1) * 100)]; proved on the
    binary64 numbers the card computes with. *)
Theorem compare_formula
    (r b : MetricsRecord Binary64.number) (res : Comparison Binary64.number) :
  algorithmId r <> algorithmId b ->
  compare r b = Some res ->
  ((timeMs r <? timeMs b) = true ->
   direction res = faster
   /\ percent res = Math_round (- (timeMs r / timeMs b - num 1) * num 100))
  /\ ((timeMs r >=? timeMs b) = true ->
      direction res = slower
      /\ percent res = Math_round ((timeMs r / timeMs b - num 1) * num 100)).
Proof.
  intros _. apply formula_of_compare.
  - intros x y. apply binary64_ge_not_lt.
  - intros x. cbn. now rewrite binary64_mul_neg.
Qed.

Lemma compare_formula_witness :
  let r := run "merge" (Binary64.of_Z 140) in
  let b := run "quick" (Binary64.of_Z 120) in
  let res := {| direction := slower; percent := Binary64.of_Z 17 |} in
  ((timeMs r <? timeMs b) = true ->
   direction res = faster
   /\ percent res = Math_round (- (timeMs r / timeMs b - num 1) * num 100))
  /\ ((timeMs r >=? timeMs b) = true ->
      direction res = slower
      /\ percent res = Math_round ((timeMs r / timeMs b - num 1) * num 100)).
Proof.
  intros r b res. apply (compare_formula r b res).
  - cbn. discriminate.
  - vm_compute. reflexivity.
Defined.

(** The same formula on exact numbers. *)
Lemma exact_compare_formula
    (r b : MetricsRecord JS.number) (res : Comparison JS.number) :
  compare r b = Some res ->
  ((timeMs r <? timeMs b) = true ->
   direction res = faster
   /\ percent res = Math_round (- (timeMs r / timeMs b - num 1) * num 100))
  /\ ((timeMs r >=? timeMs b) = true ->
      direction res = slower
      /\ percent res = Math_round ((timeMs r / timeMs b - num 1) * num 100)).
Proof.
  apply formula_of_compare.
  - intros x y. apply exact_ge_not_lt.
  - intros x. apply exact_round_neg.
Qed.

(** C3: comparing merge at 140 ms with the baseline quick at 120 ms gives
    "17% slower", on binary64 numbers and on exact ones. *)
Theorem compare_merge_140_quick_120 :
  compare (run "merge" (Binary64.of_Z 140)) (run "quick" (Binary64.of_Z 120))
  = Some {| direction := slower; percent := Binary64.of_Z 17 |}
  /\ compare (run "merge" (JS.of_Z 140)) (run "quick" (JS.of_Z 120))
     = Some {| direction := slower; percent := JS.of_Z 17 |}.
Proof. split; vm_compute; reflexivity. Qed.

(** C4: a record is never compared with a baseline of the same algorithm,
    whatever the two times are, in every model of the numbers. *)
Theorem compare_same_algorithm
    {N : Type} {HN : Number N} (r b : MetricsRecord N) :
  algorithmId r = algorithmId b -> compare r b = None.
Proof.
  intros E. unfold compare, RankingCard, renderComparison; cbn.
  rewrite E, String.eqb_refl. reflexivity.
Qed.

Lemma compare_same_algorithm_witness :
  compare (run "quick" (Binary64.of_Z 120)) (run "quick" (Binary64.of_Z 120))
  = None.
Proof.
  apply (compare_same_algorithm
           (run "quick" (Binary64.of_Z 120)) (run "quick" (Binary64.of_Z 120))).
  reflexivity.
Defined.

(** C8: when [currentAlgoMetrics] is null or undefined the card renders no
    comparison, whatever its other props are. *)
Theorem no_baseline_no_comparison
    {N : Type} {HN : Number N} (p : Props N) :
  currentAlgoMetrics p = None -> comparison (RankingCard p) = None.
Proof.
  intros E. unfold RankingCard, renderComparison; cbn. rewrite E.
  now destruct (negb _).
Qed.

Lemma no_baseline_no_comparison_witness :
  comparison (RankingCard {|
    algo := "merge";
    metrics := {| swaps := 12; comparisons := 30;
                  time := Binary64.of_Z 140 |};
    rank := 2;
    algorithm := "quick";
    currentAlgoMetrics := None |}) = None.
Proof.
  apply (no_baseline_no_comparison (N := Binary64.number)). reflexivity.
Defined.

(** ** The colour schemes and the performance bar *)

Ltac case_algo algo :=
  repeat match goal with
         | |- context [String.eqb algo ?s] =>
             destruct (String.eqb_spec algo s) as [->|?]
         end.

(** C9: [getColorScheme] gives every identifier a scheme: green for quick,
    merge and heap, cyan for radix and bucket, red for insertion, selection
    and bubble, and slate for every other identifier. *)
Theorem getColorScheme_total (algo : string) :
  (In algo ["quick"; "merge"; "heap"] -> getColorScheme algo = green)
  /\ (In algo ["radix"; "bucket"] -> getColorScheme algo = cyan)
  /\ (In algo ["insertion"; "selection"; "bubble"] ->
      getColorScheme algo = red)
  /\ (~ In algo ["quick"; "merge"; "heap"; "radix"; "bucket";
                 "insertion"; "selection"; "bubble"] ->
      getColorScheme algo = slate)
  /\ In (getColorScheme algo) [green; cyan; red; slate].
Proof.
  unfold getColorScheme. case_algo algo; cbn;
    intuition (try discriminate; try congruence).
Qed.

Lemma getColorScheme_total_witness :
  getColorScheme "merge" = green
  /\ getColorScheme "bucket" = cyan
  /\ getColorScheme "bubble" = red
  /\ getColorScheme "shell" = slate.
Proof.
  split; [|split; [|split]].
  - apply (proj1 (getColorScheme_total "merge")). cbn. auto.
  - apply (proj1 (proj2 (getColorScheme_total "bucket"))). cbn. auto.
  - apply (proj1 (proj2 (proj2 (getColorScheme_total "bubble")))).
    cbn. auto.
  - apply (proj1 (proj2 (proj2 (proj2 (getColorScheme_total "shell"))))).
    cbn. intuition discriminate.
Defined.

(** C10: for a rank of at least 1 the width of the bar of the card lies
    between 5 and 100; it is 100 for rank 1 and 5 from rank 8 on. *)
Theorem barWidth_range {N : Type} {HN : Number N} (p : Props N) :
  (1 <= rank p)%Z ->
  (5 <= width (RankingCard p) <= 100)%Z
  /\ (rank p = 1%Z -> width (RankingCard p) = 100%Z)
  /\ (8 <= rank p -> width (RankingCard p) = 5)%Z.
Proof. cbn [width RankingCard]. unfold barWidth. lia. Qed.

Lemma barWidth_range_witness :
  let p := {| algo := "bubble";
              metrics := {| swaps := 400; comparisons := 900;
                            time := Binary64.of_Z 980 |};
              rank := 8;
              algorithm := "quick";
              currentAlgoMetrics := None |} in
  (5 <= width (RankingCard p) <= 100)%Z
  /\ (rank p = 1%Z -> width (RankingCard p) = 100%Z)
  /\ (8 <= rank p -> width (RankingCard p) = 5)%Z.
Proof.
  intros p. apply (barWidth_range p). cbn. lia.
Defined.

(** ** The rounding of the percentage *)

(** *** On exact numbers *)

Lemma Qzero_b_pos (c : Q) : (0 < c)%Q -> JS.Qzero_b c = false.
Proof. unfold JS.Qzero_b. rewrite Qlt_alt. now intros ->. Qed.

(** What the card rounds, for a positive finite baseline time. *)
Lemma exact_unrounded (a c : Q) (k : Z) :
  (0 < c)%Q ->
  ((JS.Fin a / JS.Fin c - num 1) * num k)%js
  = JS.Fin (delta a c * inject_Z k)%Q.
Proof.
  intros Hc. cbn [js_div js_sub js_mul num exact_Number].
  unfold JS.div, JS.sub, JS.neg, JS.add, JS.mul, JS.of_Z.
  rewrite (Qzero_b_pos c Hc). reflexivity.
Qed.

Lemma delta_sign (a c : Q) :
  (0 < c)%Q ->
  ((a < c)%Q -> (delta a c < 0)%Q) /\ ((c <= a)%Q -> (0 <= delta a c)%Q).
Proof.
  intros Hc. unfold delta. split; intros H.
  - assert (a / c < 1)%Q by (apply Qlt_shift_div_r; [assumption|lra]). lra.
  - assert (1 <= a / c)%Q by (apply Qle_shift_div_l; [assumption|lra]). lra.
Qed.

(** [round_half_away_from_zero] is a nearest integer, and a tie goes away
    from zero. *)
Lemma round_half_away_nearest (q : Q) :
  (Qabs (inject_Z (round_half_away_from_zero q) - q) <= 1 # 2)%Q.
Proof.
  unfold round_half_away_from_zero. apply Qabs_Qle_condition.
  destruct (Qle_bool 0 q).
  - pose proof (Qfloor_le (q + (1 # 2))) as L.
    pose proof (Qlt_floor (q + (1 # 2))) as U.
    rewrite inject_Z_plus in U. change (inject_Z 1) with 1%Q in U. lra.
  - pose proof (Qfloor_le (- q + (1 # 2))) as L.
    pose proof (Qlt_floor (- q + (1 # 2))) as U.
    rewrite inject_Z_plus in U. change (inject_Z 1) with 1%Q in U.
    rewrite inject_Z_opp. lra.
Qed.

Lemma round_half_away_tie (n : Z) :
  (0 <= n)%Z ->
  round_half_away_from_zero (inject_Z n + (1 # 2)) = (n + 1)%Z
  /\ round_half_away_from_zero (- (inject_Z n + (1 # 2))) = (- (n + 1))%Z.
Proof.
  intros Hn. unfold round_half_away_from_zero.
  assert (Hq : (0 <= inject_Z n)%Q)
    by (change 0%Q with (inject_Z 0); now rewrite <- Zle_Qle).
  assert (E : (inject_Z n + (1 # 2) + (1 # 2) == inject_Z (n + 1))%Q)
    by (rewrite inject_Z_plus; change (inject_Z 1) with 1%Q; ring).
  split.
  - replace (Qle_bool 0 (inject_Z n + (1 # 2))) with true
      by (symmetry; apply Qle_bool_iff; lra).
    rewrite (Qfloor_comp _ _ E). apply Qfloor_Z.
  - destruct (Qle_bool 0 (- (inject_Z n + (1 # 2)))) eqn:B.
    + apply Qle_bool_iff in B. lra.
    + f_equal. rewrite <- (Qfloor_Z (n + 1)). apply Qfloor_comp.
      rewrite <- E. ring.
Qed.

(** [Math.round] is not that rounding on negative ties: -2.5 goes to -2. *)
Lemma Math_round_negative_tie :
  Math_round (JS.Fin (- (5 # 2))) = JS.of_Z (-2)
  /\ round_half_away_from_zero (- (5 # 2)) = (-3)%Z.
Proof. split; reflexivity. Qed.

(** On a value that is not negative the two roundings agree. *)
Lemma Math_round_nonneg (v : Q) :
  (0 <= v)%Q ->
  Math_round (JS.Fin v) = JS.of_Z (round_half_away_from_zero v).
Proof.
  intros Hv. cbn [Math_round exact_Number]. unfold JS.round.
  unfold round_half_away_from_zero.
  now replace (Qle_bool 0 v) with true by (symmetry; now apply Qle_bool_iff).
Qed.

Lemma Math_round_Qeq (v w : Q) :
  (v == w)%Q -> Math_round (JS.Fin v) = Math_round (JS.Fin w).
Proof.
  intros E. cbn [Math_round exact_Number]. unfold JS.round. f_equal.
  apply Qfloor_comp. now rewrite E.
Qed.

(** The block of two records with finite positive times. *)
Lemma compare_positive_times
    (r b : MetricsRecord JS.number) (a c : Q) (res : Comparison JS.number) :
  timeMs r = JS.Fin a -> timeMs b = JS.Fin c ->
  (0 < a)%Q -> (0 < c)%Q ->
  compare r b = Some res ->
  ((a < c)%Q ->
   direction res = faster
   /\ percent res = JS.of_Z (round_half_away_from_zero (- delta a c * 100)))
  /\ ((c <= a)%Q ->
      direction res = slower
      /\ percent res = JS.of_Z (round_half_away_from_zero (delta a c * 100))).
Proof.
  intros Ha Hc Pa Pc H. apply compare_Some_inv in H as (_ & _ & ->).
  rewrite Ha, Hc. destruct (delta_sign a c Pc) as [Dn Dp].
  rewrite !(exact_unrounded a c _ Pc). split; intros L.
  - replace (JS.Fin a <? JS.Fin c) with true
      by (symmetry; now apply lt_Fin).
    cbn [direction percent]. split; [reflexivity|].
    specialize (Dn L).
    rewrite <- Math_round_nonneg by lra.
    apply Math_round_Qeq. change (inject_Z (-100)) with (- (100))%Q. ring.
  - replace (JS.Fin a <? JS.Fin c) with false
      by (symmetry; now apply lt_Fin_false).
    cbn [direction percent]. split; [reflexivity|].
    specialize (Dp L).
    rewrite <- Math_round_nonneg by lra.
    apply Math_round_Qeq. change (inject_Z 100) with 100%Q. ring.
Qed.

Lemma round_half_away_nonneg (v : Q) :
  (0 <= v)%Q ->
  (0 <= round_half_away_from_zero v)%Z
  /\ ((0 < round_half_away_from_zero v)%Z <-> ((1 # 2) <= v)%Q).
Proof.
  intros Hv. unfold round_half_away_from_zero.
  replace (Qle_bool 0 v) with true by (symmetry; now apply Qle_bool_iff).
  assert (N0 : (0 <= Qfloor (v + (1 # 2)))%Z).
  { change 0%Z with (Qfloor 0). apply Qfloor_resp_le. lra. }
  split; [exact N0|]. split; intros H.
  - pose proof (Qfloor_le (v + (1 # 2))) as L.
    assert (1 <= inject_Z (Qfloor (v + (1 # 2))))%Q
      by (change 1%Q with (inject_Z 1); rewrite <- Zle_Qle; lia).
    lra.
  - assert (Qfloor 1 <= Qfloor (v + (1 # 2)))%Z
      by (apply Qfloor_resp_le; lra).
    change (Qfloor 1) with 1%Z in *. lia.
Qed.

(** *** On binary64 numbers *)

(** C5: for two valid, finite and positive binary64 times for which a
    comparison is produced, the percentage shown is the unrounded
    percentage ([- delta * 100] for a faster candidate, [delta * 100] for a
    slower one, as the card computes them) rounded to the nearest integer,
    a tie going away from zero. *)
Theorem percent_rounded_half_away_from_zero
    (r b : MetricsRecord Binary64.number) (res : Comparison Binary64.number) :
  Binary64.positive_finite (timeMs r) = true ->
  Binary64.positive_finite (timeMs b) = true ->
  compare r b = Some res ->
  ((timeMs r <? timeMs b) = true ->
   percent res
   = Binary64.round_half_away (- (timeMs r / timeMs b - num 1) * num 100))
  /\ ((timeMs r >=? timeMs b) = true ->
      percent res
      = Binary64.round_half_away ((timeMs r / timeMs b - num 1) * num 100)).
Proof.
  intros Pr Pb H. apply compare_Some_inv in H as (_ & _ & ->).
  pose proof (unrounded_signed_false _ _ Pr Pb) as S.
  split; intros L.
  - rewrite L. cbn [js_lt binary64_Number] in L. rewrite L in S.
    cbn [percent js_neg js_mul binary64_Number]. rewrite binary64_mul_neg.
    exact (round_half_away_signed_false _ S).
  - apply binary64_ge_not_lt in L. cbn [js_lt binary64_Number].
    rewrite L in *. cbn [percent].
    exact (round_half_away_signed_false _ S).
Qed.

Lemma percent_rounded_half_away_from_zero_witness :
  let r := run "merge" (Binary64.of_Z 140) in
  let b := run "quick" (Binary64.of_Z 120) in
  let res := {| direction := slower; percent := Binary64.of_Z 17 |} in
  ((timeMs r <? timeMs b) = true ->
   percent res
   = Binary64.round_half_away (- (timeMs r / timeMs b - num 1) * num 100))
  /\ ((timeMs r >=? timeMs b) = true ->
      percent res
      = Binary64.round_half_away ((timeMs r / timeMs b - num 1) * num 100)).
Proof.
  intros r b res. apply (percent_rounded_half_away_from_zero r b res).
  - reflexivity.
  - reflexivity.
  - vm_compute. reflexivity.
Defined.

(** C6 as stated fails: two eligible records of distinct algorithms with
    the same time are compared, and the percentage shown is 0, which is
    not positive. *)
Lemma compare_equal_times_percent_zero :
  let r := run "merge" (Binary64.of_Z 120) in
  let b := run "quick" (Binary64.of_Z 120) in
  let res := {| direction := slower; percent := Binary64.of_Z 0 |} in
  algorithmId r <> algorithmId b
  /\ (timeMs r >? num 0) = true
  /\ (timeMs b >? num 0) = true
  /\ compare r b = Some res
  /\ (percent res >? num 0) = false
  /\ compare (run "merge" (JS.of_Z 120)) (run "quick" (JS.of_Z 120))
     = Some {| direction := slower; percent := JS.of_Z 0 |}.
Proof.
  cbv zeta. split; [discriminate|]. repeat split.
Qed.

(** C6, amended: for two valid, finite and positive binary64 times for
    which a comparison is produced, the percentage shown is never negative
    (it may be 0). *)
Theorem percent_nonnegative
    (r b : MetricsRecord Binary64.number) (res : Comparison Binary64.number) :
  Binary64.positive_finite (timeMs r) = true ->
  Binary64.positive_finite (timeMs b) = true ->
  compare r b = Some res ->
  (percent res >=? num 0) = true.
Proof.
  intros Pr Pb H. apply compare_Some_inv in H as (_ & _ & ->).
  pose proof (unrounded_signed_false _ _ Pr Pb) as S.
  apply signed_false_ge_zero.
  cbn [js_lt binary64_Number]. destruct (SFltb (timeMs r) (timeMs b));
    cbn [percent]; exact (round_signed_false _ S).
Qed.

Lemma percent_nonnegative_witness :
  (percent {| direction := slower; percent := Binary64.of_Z 17 |} >=? num 0)
  = true.
Proof.
  apply (percent_nonnegative
           (run "merge" (Binary64.of_Z 140)) (run "quick" (Binary64.of_Z 120))
           {| direction := slower; percent := Binary64.of_Z 17 |}).
  - reflexivity.
  - reflexivity.
  - vm_compute. reflexivity.
Defined.

(** On exact numbers the percentage is an integer that is not negative,
    and it is positive exactly when the times differ by at least half a
    percent of the baseline time.  This threshold belongs to the exact
    value only: the card computes on binary64 numbers, where the rounding
    of the division moves it (see [binary64_half_percent_shown_as_0] and
    [binary64_below_half_percent_shown_as_1] below). *)
Lemma exact_percent_nonnegative
    (r b : MetricsRecord JS.number) (a c : Q) (res : Comparison JS.number) :
  timeMs r = JS.Fin a -> timeMs b = JS.Fin c ->
  (0 < a)%Q -> (0 < c)%Q ->
  compare r b = Some res ->
  exists n : Z,
    percent res = JS.of_Z n
    /\ (0 <= n)%Z
    /\ ((0 < n)%Z <-> ((1 # 2) <= Qabs (delta a c) * 100)%Q).
Proof.
  intros Ha Hc Pa Pc H.
  destruct (compare_positive_times r b a c res Ha Hc Pa Pc H) as [F S].
  destruct (delta_sign a c Pc) as [Dn Dp].
  destruct (Qlt_le_dec a c) as [L|L].
  - destruct (F L) as [_ ->]. specialize (Dn L).
    exists (round_half_away_from_zero (- delta a c * 100)).
    destruct (round_half_away_nonneg (- delta a c * 100)) as [N0 N1];
      [lra|].
    split; [reflexivity|]. split; [exact N0|].
    rewrite N1. rewrite (Qabs_neg (delta a c)) by lra. reflexivity.
  - destruct (S L) as [_ ->]. specialize (Dp L).
    exists (round_half_away_from_zero (delta a c * 100)).
    destruct (round_half_away_nonneg (delta a c * 100)) as [N0 N1];
      [lra|].
    split; [reflexivity|]. split; [exact N0|].
    rewrite N1. rewrite (Qabs_pos (delta a c)) by lra. reflexivity.
Qed.

(** *** Where the exact numbers and the card disagree

    The exact numbers leave out the rounding of the division, the
    subtraction and the multiplication, so they do not always give the
    percentage that the card shows.  Two times that differ by exactly half
    a percent of the baseline are shown as 0% by the card, because the
    binary64 product lies just below one half, where the exact value is
    one half and rounds to 1. *)
Example binary64_half_percent_shown_as_0 :
  compare (run "merge" (Binary64.of_Z 201)) (run "quick" (Binary64.of_Z 200))
  = Some {| direction := slower; percent := Binary64.of_Z 0 |}
  /\ compare (run "merge" (JS.of_Z 201)) (run "quick" (JS.of_Z 200))
     = Some {| direction := slower; percent := JS.of_Z 1 |}.
Proof. split; vm_compute; reflexivity. Qed.

(** Conversely, two valid positive times that differ by less than half a
    percent of the baseline can be shown as 1%: for 199 + 2^-45 against
    200 + 2^-45 the binary64 product lies just above one half, which
    [Math.round] takes to 1, where the exact value is below one half and
    rounds to 0. *)
Example binary64_below_half_percent_shown_as_1 :
  let r := S754_finite false 7001690045677569 (-45) in
  let b := S754_finite false 7036874417766401 (-45) in
  Binary64.positive_finite r = true
  /\ Binary64.positive_finite b = true
  /\ compare (run "merge" r) (run "quick" b)
     = Some {| direction := faster; percent := Binary64.of_Z 1 |}
  /\ compare (run "merge" (JS.Fin (7001690045677569 # 35184372088832)))
             (run "quick" (JS.Fin (7036874417766401 # 35184372088832)))
     = Some {| direction := faster; percent := JS.of_Z 0 |}.
Proof. cbv zeta. repeat split; vm_compute; reflexivity. Qed.

(** ** Further properties of the card *)

(** *** The comparison block *)

(** The block that is rendered when the guards hold. *)
Lemma compare_Some_intro
    {N : Type} {HN : Number N} (r b : MetricsRecord N) :
  algorithmId r <> algorithmId b ->
  (time (record r) >? num 0) = true ->
  compare r b
  = Some (if timeMs r <? timeMs b
          then {| direction := faster;
                  percent :=
                    Math_round ((timeMs r / timeMs b - num 1) * num (-100)) |}
          else {| direction := slower;
                  percent :=
                    Math_round ((timeMs r / timeMs b - num 1) * num 100) |}).
Proof.
  intros Hid Hpos. unfold compare, RankingCard, renderComparison, timeMs; cbn.
  apply String.eqb_neq in Hid. rewrite Hid, Hpos. cbn.
  destruct (js_lt (parseFloat (time (record r)))
              (parseFloat (time (record b)))); reflexivity.
Qed.

(** A time above a strictly positive time is strictly positive. *)
Lemma binary64_lt_positive (x y : spec_float) :
  SFltb (Binary64.of_Z 0) x = true ->
  SFltb (Binary64.parseFloat x) (Binary64.parseFloat y) = true ->
  SFltb (Binary64.of_Z 0) y = true.
Proof.
  destruct x as [|[]| |[] m1 e1]; try discriminate;
    destruct y as [[]|[]| |[] m2 e2]; try discriminate; reflexivity.
Qed.

Lemma binary64_lt_asym (x y : spec_float) :
  SFltb x y = true -> SFltb y x = false.
Proof.
  unfold SFltb. rewrite (SFcompare_antisym x y).
  destruct (SFcompare x y) as [[]|]; cbn; congruence.
Qed.

(** X1: when the card of [r] reads "faster" against the baseline [b], the
    card of [b] against the baseline [r] is rendered too and reads
    "slower". *)
Theorem compare_faster_then_slower
    (r b : MetricsRecord Binary64.number) (res : Comparison Binary64.number) :
  compare r b = Some res ->
  direction res = faster ->
  exists res', compare b r = Some res' /\ direction res' = slower.
Proof.
  intros H D. apply compare_Some_inv in H as (Hid & Hpos & ->).
  destruct (timeMs r <? timeMs b) eqn:L; [|discriminate D].
  assert (Hb : (time (record b) >? num 0) = true)
    by exact (binary64_lt_positive _ _ Hpos L).
  rewrite (compare_Some_intro b r (not_eq_sym Hid) Hb).
  apply binary64_lt_asym in L. cbn [js_lt binary64_Number]. rewrite L.
  eexists. split; reflexivity.
Qed.

Lemma compare_faster_then_slower_witness :
  exists res',
    compare (run "merge" (Binary64.of_Z 140)) (run "quick" (Binary64.of_Z 120))
    = Some res'
    /\ direction res' = slower.
Proof.
  apply (compare_faster_then_slower
           (run "quick" (Binary64.of_Z 120)) (run "merge" (Binary64.of_Z 140))
           {| direction := faster; percent := Binary64.of_Z 14 |}).
  - vm_compute. reflexivity.
  - reflexivity.
Defined.

(** The quotient of a positive finite value by itself is 1. *)
Lemma SFdiv_self (m : positive) (e : Z) :
  SFdiv Binary64.prec Binary64.emax
    (S754_finite false m e) (S754_finite false m e)
  = Binary64.of_Z 1.
Proof.
  unfold SFdiv, SFdiv_core_binary.
  replace (Zdigits2 (Zpos m) + e - (Zdigits2 (Zpos m) + e))%Z with 0%Z
    by lia.
  rewrite Z.sub_diag.
  change (Z.min (fexp Binary64.prec Binary64.emax 0) 0) with (-53)%Z.
  change (0 - -53)%Z with 53%Z. cbv beta iota zeta.
  rewrite Z.shiftl_mul_pow2 by lia.
  pose proof (Z.div_eucl_eq (Zpos m * 2 ^ 53) (Zpos m) ltac:(lia)) as E.
  pose proof (Z.mod_pos_bound (Zpos m * 2 ^ 53) (Zpos m) ltac:(lia)) as B.
  unfold Z.modulo in B.
  destruct (Z.div_eucl (Zpos m * 2 ^ 53) (Zpos m)) as [q r].
  assert (Hq : q = (2 ^ 53)%Z) by nia.
  assert (Hr : r = 0%Z) by nia.
  subst q r.
  replace (new_location (Zpos m) 0) with loc_Exact
    by (unfold new_location; destruct (Z.even (Zpos m)); reflexivity).
  reflexivity.
Qed.

(** X2: two records of different algorithms with the same valid, finite
    and positive time are compared as "0% slower". *)
Theorem compare_equal_times
    (r b : MetricsRecord Binary64.number) :
  algorithmId r <> algorithmId b ->
  Binary64.positive_finite (timeMs r) = true ->
  timeMs b = timeMs r ->
  compare r b = Some {| direction := slower; percent := num 0 |}.
Proof.
  intros Hid Pr E.
  assert (Hpos : (time (record r) >? num 0) = true).
  { unfold timeMs in Pr. cbn [parseFloat binary64_Number] in Pr.
    destruct (time (record r)) as [|[]| |[] m e]; try discriminate Pr.
    reflexivity. }
  rewrite (compare_Some_intro r b Hid Hpos), E.
  destruct (timeMs r) as [| | |[] m e]; try discriminate Pr.
  cbn [js_lt js_div binary64_Number]. rewrite SFdiv_self.
  replace (SFltb (S754_finite false m e) (S754_finite false m e)) with false.
  - reflexivity.
  - unfold SFltb, SFcompare. rewrite Z.compare_refl.
    change (Pos.compare_cont Eq m m) with (m ?= m)%positive.
    now rewrite Pos.compare_refl.
Qed.

Lemma compare_equal_times_witness :
  compare (run "merge" (Binary64.of_Z 120)) (run "quick" (Binary64.of_Z 120))
  = Some {| direction := slower; percent := num 0 |}.
Proof.
  apply (compare_equal_times
           (run "merge" (Binary64.of_Z 120)) (run "quick" (Binary64.of_Z 120))).
  - cbn. discriminate.
  - reflexivity.
  - reflexivity.
Defined.

(** X3: a baseline whose time is a zero or NaN is compared against all the
    same: every candidate of another algorithm with a strictly positive
    time reads "Infinity% slower" against a zero and "NaN% slower" against
    NaN. *)
Theorem compare_unmeasured_baseline
    (r b : MetricsRecord Binary64.number) :
  algorithmId r <> algorithmId b ->
  (time (record r) >? num 0) = true ->
  ((exists s, time (record b) = S754_zero s) ->
   compare r b
   = Some {| direction := slower; percent := S754_infinity false |})
  /\ (time (record b) = S754_nan ->
      compare r b = Some {| direction := slower; percent := S754_nan |}).
Proof.
  intros Hid Hpos. rewrite (compare_Some_intro r b Hid Hpos).
  unfold timeMs. split.
  - intros [s ->].
    destruct (time (record r)) as [|[]| |[] m e]; try discriminate Hpos;
      reflexivity.
  - intros ->.
    destruct (time (record r)) as [|[]| |[] m e]; try discriminate Hpos;
      reflexivity.
Qed.

Lemma compare_unmeasured_baseline_witness :
  ((exists s, Binary64.of_Z 0 = S754_zero s) ->
   compare (run "merge" (Binary64.of_Z 140)) (run "quick" (Binary64.of_Z 0))
   = Some {| direction := slower; percent := S754_infinity false |})
  /\ (Binary64.of_Z 0 = S754_nan ->
      compare (run "merge" (Binary64.of_Z 140))
        (run "quick" (Binary64.of_Z 0))
      = Some {| direction := slower; percent := S754_nan |}).
Proof.
  apply (compare_unmeasured_baseline
           (run "merge" (Binary64.of_Z 140)) (run "quick" (Binary64.of_Z 0))).
  - cbn. discriminate.
  - reflexivity.
Defined.

(** X4: the card shows the comparison exactly when it does not carry the
    CURRENT badge, a baseline is given and the time of its own run is
    strictly positive; the time of the baseline is not looked at. *)
Theorem comparison_shown_iff {N : Type} {HN : Number N} (p : Props N) :
  comparison (RankingCard p) <> None
  <-> currentBadge (RankingCard p) = false
      /\ currentAlgoMetrics p <> None
      /\ (time (metrics p) >? num 0) = true.
Proof.
  unfold RankingCard, renderComparison; cbn.
  destruct (algo p =? algorithm p)%string; cbn.
  - split; [congruence|]. intros (H & _). discriminate H.
  - destruct (currentAlgoMetrics p) as [cur|].
    + destruct (js_lt (num 0) (time (metrics p))).
      * destruct (js_lt _ _); split; intros; repeat split; congruence.
      * split; [congruence|]. intros (_ & _ & H). discriminate H.
    + split; [congruence|]. intros (_ & H & _). congruence.
Qed.

Lemma comparison_shown_iff_witness :
  comparison (RankingCard {|
    algo := "merge";
    metrics := {| swaps := 12; comparisons := 30;
                  time := Binary64.of_Z 140 |};
    rank := 2;
    algorithm := "quick";
    currentAlgoMetrics :=
      Some {| swaps := 10; comparisons := 20; time := Binary64.of_Z 0 |}
  |}) <> None.
Proof.
  apply (proj2 (comparison_shown_iff _)).
  split; [reflexivity|]. split; [discriminate|reflexivity].
Defined.

(** *** A faster candidate is at most 100% faster *)

Section Binary64Bounds.

Local Open Scope Z_scope.
Local Abbreviation prec := Binary64.prec.
Local Abbreviation emax := Binary64.emax.

Lemma Zdigits2_unique (m k : Z) :
  0 < m -> 2 ^ (k - 1) <= m < 2 ^ k -> Zdigits2 m = k.
Proof.
  intros Hm [L U]. destruct (Zdigits2_bounds m Hm) as [Hd [L' U']].
  assert (0 < k).
  { destruct (Z_lt_le_dec 0 k); [assumption|].
    assert (2 ^ k <= 2 ^ 0) by (apply Z.pow_le_mono_r; lia).
    change (2 ^ 0) with 1 in *. lia. }
  destruct (Z.lt_trichotomy (Zdigits2 m) k) as [C|[C|C]]; [|assumption|].
  - assert (2 ^ Zdigits2 m <= 2 ^ (k - 1)) by (apply Z.pow_le_mono_r; lia).
    lia.
  - assert (2 ^ k <= 2 ^ (Zdigits2 m - 1)) by (apply Z.pow_le_mono_r; lia).
    lia.
Qed.

Lemma Zdigits2_nonneg (m : Z) : 0 <= Zdigits2 m.
Proof. destruct m; cbn; lia. Qed.

Lemma Zdigits2_mono (m m' : Z) : 0 <= m <= m' -> Zdigits2 m <= Zdigits2 m'.
Proof.
  intros [H0 H]. destruct (Z.eq_dec m 0) as [->|Hz].
  - apply Zdigits2_nonneg.
  - destruct (Zdigits2_bounds m ltac:(lia)) as [_ [L _]].
    destruct (Zdigits2_bounds m' ltac:(lia)) as [_ [_ U]].
    destruct (Z_le_gt_dec (Zdigits2 m) (Zdigits2 m')) as [|G]; [assumption|].
    assert (2 ^ Zdigits2 m' <= 2 ^ (Zdigits2 m - 1))
      by (apply Z.pow_le_mono_r; [lia|]; pose proof (Zdigits2_nonneg m'); lia).
    lia.
Qed.

(** After [shr_fexp] the exponent is the one of the format. *)
Lemma shr_fexp_canonical (m e : Z) (l : location) mrs e' :
  0 <= m ->
  e <= fexp prec emax (Zdigits2 m + e) ->
  shr_fexp prec emax m e l = (mrs, e') ->
  canonical (shr_m mrs) e'.
Proof.
  intros Hm P E. unfold canonical.
  destruct (shr_fexp_spec m e l mrs e' Hm E) as [S0 S1].
  destruct (Z_le_gt_dec (fexp prec emax (Zdigits2 m + e) - e) 0) as [N|N].
  - destruct (S0 N) as [-> ->]. lia.
  - destruct (S1 ltac:(lia)) as [-> ->].
    set (n := fexp prec emax (Zdigits2 m + e) - e) in *.
    assert (P2 : 0 < 2 ^ n) by (apply Z.pow_pos_nonneg; lia).
    destruct (Z_lt_le_dec m (2 ^ n)) as [Small|Big].
    + rewrite Z.div_small by lia. cbn [Zdigits2].
      assert (Zdigits2 m <= n) by (apply Zdigits2_le; lia).
      unfold n in *. rewrite !fexp_eq in *. lia.
    + destruct (Zdigits2_bounds m ltac:(lia)) as [Hd [L U]].
      assert (Hn : n < Zdigits2 m).
      { destruct (Z_lt_le_dec n (Zdigits2 m)); [assumption|].
        assert (2 ^ Zdigits2 m <= 2 ^ n) by (apply Z.pow_le_mono_r; lia).
        lia. }
      assert (D : Zdigits2 (m / 2 ^ n) = Zdigits2 m - n).
      { assert (Q1 : 2 ^ (Zdigits2 m - 1) = 2 ^ n * 2 ^ (Zdigits2 m - n - 1)).
        { rewrite <- Z.pow_add_r by lia. f_equal. lia. }
        assert (Q2 : 2 ^ Zdigits2 m = 2 ^ n * 2 ^ (Zdigits2 m - n)).
        { rewrite <- Z.pow_add_r by lia. f_equal. lia. }
        assert (0 < 2 ^ (Zdigits2 m - n - 1))
          by (apply Z.pow_pos_nonneg; lia).
        apply Zdigits2_unique.
        - assert (2 ^ (Zdigits2 m - n - 1) <= m / 2 ^ n)
            by (apply Z.div_le_lower_bound; lia).
          lia.
        - split.
          + apply Z.div_le_lower_bound; lia.
          + apply Z.div_lt_upper_bound; lia. }
      rewrite D. replace (Zdigits2 m - n + (e + n)) with (Zdigits2 m + e)
        by lia.
      unfold n. lia.
Qed.

Lemma fexp_mono (x y : Z) : x <= y -> fexp prec emax x <= fexp prec emax y.
Proof. rewrite !fexp_eq. lia. Qed.

(** A finite result of [binary_round_aux] has the exponent of the format,
    when the argument has digits enough. *)
Lemma binary_round_aux_canonical (s : bool) (m e : Z) (l : location) :
  0 <= m ->
  e <= fexp prec emax (Zdigits2 m + e) ->
  match binary_round_aux prec emax s m e l with
  | S754_finite _ m' e' => canonical (Zpos m') e'
  | _ => True
  end.
Proof.
  intros Hm P. unfold binary_round_aux.
  destruct (shr_fexp prec emax m e l) as [mrs1 e1] eqn:E1.
  destruct (shr_fexp prec emax _ e1 loc_Exact) as [mrs2 e2] eqn:E2.
  pose proof (round_nearest_even_bounds (shr_m mrs1)
                (loc_of_shr_record mrs1)) as B.
  pose proof (shr_fexp_canonical m e l mrs1 e1 Hm P E1) as C1.
  assert (H1 : 0 <= shr_m mrs1).
  { destruct (shr_fexp_spec m e l mrs1 e1 Hm E1) as [S0 S1].
    destruct (Z_le_gt_dec (fexp prec emax (Zdigits2 m + e) - e) 0) as [N|N].
    - destruct (S0 N) as [-> _]. assumption.
    - destruct (S1 ltac:(lia)) as [-> _]. apply Z.div_pos; [assumption|].
      apply Z.pow_pos_nonneg; lia. }
  assert (Hr : 0 <= round_nearest_even (shr_m mrs1) (loc_of_shr_record mrs1))
    by lia.
  assert (P2 : e1 <= fexp prec emax
                      (Zdigits2 (round_nearest_even (shr_m mrs1)
                                   (loc_of_shr_record mrs1)) + e1)).
  { unfold canonical in C1. rewrite <- C1 at 1. apply fexp_mono.
    pose proof (Zdigits2_mono (shr_m mrs1)
                  (round_nearest_even (shr_m mrs1) (loc_of_shr_record mrs1))
                  ltac:(lia)).
    lia. }
  pose proof (shr_fexp_canonical _ e1 loc_Exact mrs2 e2 Hr P2 E2) as C2.
  destruct (shr_m mrs2) as [|p|p]; auto.
  destruct (e2 <=? emax - prec); auto.
Qed.

Lemma binary_round_canonical (s : bool) (m : positive) (e : Z) :
  match binary_round prec emax s m e with
  | S754_finite _ m' e' => canonical (Zpos m') e'
  | _ => True
  end.
Proof.
  unfold binary_round.
  remember (fexp prec emax (Zpos (digits2_pos m) + e)) as f eqn:F.
  destruct (shl_align m e f) as [mz ez] eqn:A.
  apply binary_round_aux_canonical; [lia|].
  unfold shl_align in A.
  destruct (f - e) as [|d|d] eqn:D; injection A as <- <-.
  - cbn [Zdigits2]. lia.
  - cbn [Zdigits2]. lia.
  - assert (Hd : Zdigits2 (Zpos (Pos.iter xO m d))
                 = Zpos (digits2_pos m) + Zpos d).
    { rewrite iter_xO. destruct (digits2_pos_bounds m) as [L U].
      assert (0 < 2 ^ Zpos d) by (apply Z.pow_pos_nonneg; lia).
      apply Zdigits2_unique; [lia|].
      replace (Zpos (digits2_pos m) + Zpos d - 1)
        with ((Zpos (digits2_pos m) - 1) + Zpos d) by lia.
      rewrite !Z.pow_add_r by lia. nia. }
    rewrite Hd.
    replace (Zpos (digits2_pos m) + Zpos d + f)
      with (Zpos (digits2_pos m) + e) by lia.
    lia.
Qed.


(** *** Rounding and the value 100 *)

Lemma shr_fexp_le100 (m e : Z) (l : location) mrs e' :
  shr_fexp prec emax m e l = (mrs, e') -> le100 m e -> le100 (shr_m mrs) e'.
Proof.
  intros E (Hm & He & Hp).
  destruct (shr_fexp_spec m e l mrs e' Hm E) as [S0 S1].
  destruct (Z_le_gt_dec (fexp prec emax (Zdigits2 m + e) - e) 0) as [N|N].
  - destruct (S0 N) as [-> ->]. now repeat split.
  - destruct (S1 ltac:(lia)) as [-> ->].
    set (n := fexp prec emax (Zdigits2 m + e) - e) in *.
    assert (P2 : 0 < 2 ^ n) by (apply Z.pow_pos_nonneg; lia).
    assert (P3 : 0 < 2 ^ (2 - e)) by (apply Z.pow_pos_nonneg; lia).
    assert (D : Zdigits2 m <= 7 - e).
    { apply Zdigits2_le; [lia|lia|].
      replace (7 - e) with (5 + (2 - e)) by lia.
      rewrite Z.pow_add_r by lia. change (2 ^ 5) with 32. lia. }
    assert (L : e + n <= 2) by (unfold n in *; rewrite fexp_eq in *; lia).
    assert (Q : 2 ^ (2 - e) = 2 ^ n * 2 ^ (2 - (e + n))).
    { rewrite <- Z.pow_add_r by lia. f_equal. lia. }
    repeat split.
    + apply Z.div_pos; lia.
    + exact L.
    + apply Z.div_le_upper_bound; [assumption|]. lia.
Qed.

Lemma shr_fexp_below100 (m e : Z) (l : location) mrs e' :
  shr_fexp prec emax m e l = (mrs, e') ->
  below100 m e -> below100 (shr_m mrs) e'.
Proof.
  intros E (Hm & He & Hp).
  destruct (shr_fexp_spec m e l mrs e' Hm E) as [S0 S1].
  destruct (Z_le_gt_dec (fexp prec emax (Zdigits2 m + e) - e) 0) as [N|N].
  - destruct (S0 N) as [-> ->]. now repeat split.
  - destruct (S1 ltac:(lia)) as [-> ->].
    set (n := fexp prec emax (Zdigits2 m + e) - e) in *.
    assert (P2 : 0 < 2 ^ n) by (apply Z.pow_pos_nonneg; lia).
    assert (P3 : 0 < 2 ^ (2 - e)) by (apply Z.pow_pos_nonneg; lia).
    assert (D : Zdigits2 m <= 7 - e).
    { apply Zdigits2_le; [lia|lia|].
      replace (7 - e) with (5 + (2 - e)) by lia.
      rewrite Z.pow_add_r by lia. change (2 ^ 5) with 32. lia. }
    assert (L : e + n <= 2) by (unfold n in *; rewrite fexp_eq in *; lia).
    assert (Q : 2 ^ (2 - e) = 2 ^ n * 2 ^ (2 - (e + n))).
    { rewrite <- Z.pow_add_r by lia. f_equal. lia. }
    assert (m / 2 ^ n < 25 * 2 ^ (2 - (e + n))).
    { apply Z.div_lt_upper_bound; [assumption|]. lia. }
    repeat split.
    + apply Z.div_pos; lia.
    + exact L.
    + lia.
Qed.

(** A value whose upper neighbour is at most 100 is rounded to a value of
    at most 100. *)
Lemma binary_round_aux_below100 (s : bool) (m e : Z) (l : location) :
  below100 m e ->
  match binary_round_aux prec emax s m e l with
  | S754_zero _ => True
  | S754_finite _ m' e' => le100 (Zpos m') e'
  | _ => False
  end.
Proof.
  intros G. unfold binary_round_aux.
  destruct (shr_fexp prec emax m e l) as [mrs1 e1] eqn:E1.
  destruct (shr_fexp prec emax _ e1 loc_Exact) as [mrs2 e2] eqn:E2.
  pose proof (round_nearest_even_bounds (shr_m mrs1)
                (loc_of_shr_record mrs1)) as B.
  pose proof (shr_fexp_below100 _ _ _ _ _ E1 G) as G1.
  assert (G1' : le100 (round_nearest_even (shr_m mrs1)
                         (loc_of_shr_record mrs1)) e1)
    by (destruct G1 as (? & ? & ?); repeat split; lia).
  pose proof (shr_fexp_le100 _ _ _ _ _ E2 G1') as G2.
  destruct (shr_m mrs2) as [|p|p]; try (destruct G2; lia); auto.
  destruct G2 as (? & ? & ?).
  replace (e2 <=? emax - prec) with true
    by (symmetry; apply Z.leb_le; unfold Binary64.emax, Binary64.prec; lia).
  repeat split; auto.
Qed.

(** *** The size of [x - 1] for [x <= 1] *)

Lemma binary_round_below1 (s : bool) (m : positive) (e : Z) :
  below1 (Zpos m) e ->
  match binary_round prec emax s m e with
  | S754_zero _ => True
  | S754_finite s' m' e' =>
      s' = s /\ le1 (Zpos m') e' /\ canonical (Zpos m') e'
  | _ => False
  end.
Proof.
  intros (_ & He & Hm).
  pose proof (binary_round_canonical s m e) as C. revert C.
  unfold binary_round.
  remember (fexp prec emax (Zpos (digits2_pos m) + e)) as f eqn:F.
  destruct (shl_align m e f) as [mz ez] eqn:A.
  assert (B : below1 (Zpos mz) ez).
  { unfold shl_align in A.
    destruct (f - e) as [|d|d] eqn:D; injection A as <- <-;
      try (repeat split; lia).
    rewrite iter_xO.
    assert (0 < 2 ^ Zpos d) by (apply Z.pow_pos_nonneg; lia).
    assert (Q : 2 ^ (- f) = 2 ^ (- e) * 2 ^ Zpos d).
    { rewrite <- Z.pow_add_r by lia. f_equal. lia. }
    repeat split; try lia. rewrite Q. nia. }
  pose proof (binary_round_aux_below1 s (Zpos mz) ez loc_Exact B) as R.
  destruct (binary_round_aux prec emax s (Zpos mz) ez loc_Exact)
    as [s'|s'| |s' m' e']; auto.
  destruct R as [-> R]. auto.
Qed.

Lemma SFsub_one_size (m : positive) (e : Z) :
  le1 (Zpos m) e ->
  match SFsub prec emax (S754_finite false m e) (Binary64.of_Z 1) with
  | S754_zero _ => True
  | S754_finite s' m' e' =>
      s' = true /\ le1 (Zpos m') e' /\ canonical (Zpos m') e'
  | _ => False
  end.
Proof.
  intros (_ & E0 & G). rewrite one_eq. unfold SFsub. cbn [cond_Zopp].
  set (ez := Z.min e (-52)).
  rewrite !shl_align_fst by (unfold ez; lia).
  set (D := Zpos m * 2 ^ (e - ez) - 4503599627370496 * 2 ^ (-52 - ez)).
  assert (Q : 4503599627370496 * 2 ^ (-52 - ez) = 2 ^ (- ez)).
  { change 4503599627370496 with (2 ^ 52).
    rewrite <- Z.pow_add_r by (unfold ez; lia). f_equal. lia. }
  assert (P : 0 < 2 ^ (e - ez))
    by (apply Z.pow_pos_nonneg; unfold ez; lia).
  assert (HD : D <= 0).
  { unfold D. rewrite Q.
    assert (2 ^ (- ez) = 2 ^ (- e) * 2 ^ (e - ez)).
    { rewrite <- Z.pow_add_r by (unfold ez; lia). f_equal. lia. }
    nia. }
  unfold binary_normalize. destruct D as [|p|p] eqn:ED; try lia;
    try exact I.
  apply binary_round_below1. repeat split; lia.
Qed.

(** *** The product with 100 *)

Lemma Zdigits2_pow2 (k : Z) : 0 <= k -> Zdigits2 (2 ^ k) = k + 1.
Proof.
  intros Hk. assert (0 < 2 ^ k) by (apply Z.pow_pos_nonneg; lia).
  apply Zdigits2_unique; [assumption|].
  replace (k + 1 - 1) with k by lia. rewrite Z.pow_add_r by lia.
  change (2 ^ 1) with 2. lia.
Qed.

Lemma SFmul_100_size (s sk : bool) (m : positive) (e : Z) :
  le1 (Zpos m) e -> canonical (Zpos m) e ->
  match SFmul prec emax (S754_finite s m e)
          (S754_finite sk 7036874417766400 (-46)) with
  | S754_zero _ => True
  | S754_finite _ m' e' => le100 (Zpos m') e' /\ canonical (Zpos m') e'
  | _ => False
  end.
Proof.
  intros (_ & He & Hm) C.
  assert (P : 0 < 2 ^ (- e)) by (apply Z.pow_pos_nonneg; lia).
  destruct (Z.eq_dec (Zpos m) (2 ^ (- e))) as [E|NE].
  - unfold canonical in C. rewrite E, Zdigits2_pow2, fexp_eq in C by lia.
    assert (e = -52) by lia. subst e.
    change (2 ^ (- -52)) with 4503599627370496 in E.
    injection E as ->.
    destruct s, sk; vm_compute; (split; [repeat split; discriminate|reflexivity]).
  - unfold SFmul.
    set (mx := Zpos (m * 7036874417766400)).
    assert (Hmx : mx = Zpos m * 7036874417766400) by reflexivity.
    assert (B : below100 mx (e + -46)).
    { repeat split; try lia.
      replace (2 - (e + -46)) with (48 + (- e)) by lia.
      rewrite Z.pow_add_r by lia.
      change (2 ^ 48) with 281474976710656. lia. }
    pose proof (binary_round_aux_below100 (xorb s sk) mx (e + -46)
                  loc_Exact B) as R.
    assert (Dg : 53 <= Zdigits2 mx).
    { destruct (Zdigits2_bounds mx ltac:(lia)) as [_ [_ U]].
      destruct (Z_le_gt_dec 53 (Zdigits2 mx)); [assumption|].
      assert (2 ^ Zdigits2 mx <= 2 ^ 52)
        by (apply Z.pow_le_mono_r; [lia|]; lia).
      change (2 ^ 52) with 4503599627370496 in *. lia. }
    pose proof (binary_round_aux_canonical (xorb s sk) mx (e + -46)
                  loc_Exact ltac:(lia)
                  ltac:(rewrite fexp_eq; lia)) as K.
    destruct (binary_round_aux prec emax (xorb s sk) mx (e + -46) loc_Exact)
      as [s'|s'| |s' m' e']; auto.
Qed.

(** *** [Math.round] of a value of at most 100 *)

Lemma round_le100 (m : positive) (e : Z) :
  le100 (Zpos m) e -> canonical (Zpos m) e ->
  exists n, 0 <= n <= 100
            /\ Binary64.round (S754_finite false m e) = Binary64.of_Z n.
Proof.
  intros (_ & He & Hm) C. unfold Binary64.round.
  destruct (0 <=? e) eqn:E0.
  - exfalso. apply Z.leb_le in E0. unfold canonical in C.
    assert (2 ^ (2 - e) <= 2 ^ 2) by (apply Z.pow_le_mono_r; lia).
    change (2 ^ 2) with 4 in *.
    assert (0 < 2 ^ (2 - e)) by (apply Z.pow_pos_nonneg; lia).
    assert (Zdigits2 (Zpos m) <= 7).
    { apply Zdigits2_le; [lia|lia|]. change (2 ^ 7) with 128. lia. }
    rewrite fexp_eq in C. lia.
  - apply Z.leb_gt in E0. cbn [cond_Zopp].
    assert (P : 0 < 2 ^ (- e)) by (apply Z.pow_pos_nonneg; lia).
    assert (Q : 2 ^ (2 - e) = 4 * 2 ^ (- e)).
    { replace (2 - e) with (2 + (- e)) by lia.
      now rewrite Z.pow_add_r by lia. }
    exists ((2 * Zpos m + 2 ^ (- e)) / (2 * 2 ^ (- e))).
    split; [|reflexivity]. split.
    + apply Z.div_pos; lia.
    + assert ((2 * Zpos m + 2 ^ (- e)) / (2 * 2 ^ (- e)) < 101)
        by (apply Z.div_lt_upper_bound; lia).
      lia.
Qed.

Lemma binary_round_zero_sign (s : bool) (m : positive) (e : Z) :
  match binary_round prec emax s m e with
  | S754_zero s' => s' = s
  | _ => True
  end.
Proof.
  unfold binary_round. destruct (shl_align m e _) as [mz ez].
  unfold binary_round_aux.
  destruct (shr_fexp prec emax (Zpos mz) ez loc_Exact) as [mrs1 e1].
  destruct (shr_fexp prec emax _ e1 loc_Exact) as [mrs2 e2].
  destruct (shr_m mrs2); auto. now destruct (e2 <=? emax - prec).
Qed.

(** The percentage of a faster candidate, for two valid positive times. *)
Lemma faster_percent_size (ma : positive) (ea : Z) (mc : positive) (ec : Z) :
  bounded prec emax ma ea = true ->
  bounded prec emax mc ec = true ->
  let a := S754_finite false ma ea in
  let c := S754_finite false mc ec in
  SFltb a c = true ->
  exists n, 0 <= n <= 100
    /\ Binary64.parseFloat
         (Binary64.round
            (SFmul prec emax
               (SFsub prec emax (SFdiv prec emax a c) (Binary64.of_Z 1))
               (Binary64.of_Z (-100))))
       = Binary64.of_Z n.
Proof.
  intros Ba Bc a c L.
  pose proof (SFltb_value_lt ma ea mc ec Ba Bc) as O. fold a c in O.
  rewrite L in O. unfold a, c. unfold SFdiv.
  pose proof (SFdiv_core_binary_below1 ma ea mc ec O) as B.
  destruct (SFdiv_core_binary prec emax _ ea _ ec) as [[q e'] l].
  pose proof (binary_round_aux_below1 false q e' l B) as R.
  change (xorb false false) with false.
  change (Binary64.of_Z (-100))
    with (S754_finite true 7036874417766400 (-46)).
  destruct (binary_round_aux prec emax _ q e' l) as [s'|s'| |s' m' e''];
    try contradiction.
  - subst s'. exists 100. split; [lia|]. vm_compute. reflexivity.
  - destruct R as [-> R].
    pose proof (SFsub_one_size m' e'' R) as S.
    destruct (SFsub prec emax (S754_finite false m' e'') (Binary64.of_Z 1))
      as [sd|sd| |sd md ed]; try contradiction.
    + exists 0. split; [lia|]. destruct sd; reflexivity.
    + destruct S as (-> & S1 & S2).
      pose proof (SFmul_100_size true true md ed S1 S2) as M.
      pose proof (SFmul_signed true true (S754_finite true md ed)
                    7036874417766400 (-46) eq_refl) as Sg.
      destruct (SFmul prec emax (S754_finite true md ed)
                  (S754_finite true 7036874417766400 (-46)))
        as [sv|sv| |sv mv ev]; try contradiction.
      * exists 0. split; [lia|]. destruct sv; reflexivity.
      * cbn [signed xorb] in Sg. subst sv. destruct M as [M1 M2].
        destruct (round_le100 mv ev M1 M2) as (n & Hn & ->).
        exists n. split; [exact Hn|].
        destruct n as [|p|p]; [reflexivity| |lia].
        unfold Binary64.of_Z, binary_normalize.
        pose proof (binary_round_zero_sign false p 0) as Sp.
        destruct (binary_round prec emax false p 0); try reflexivity.
        now subst.
Qed.

End Binary64Bounds.

(** X5: for two valid, finite and positive times, the percentage of a
    card that reads "faster" is an integer from 0 to 100 (as shown: the
    sign of a zero is not printed). *)
Theorem faster_percent_at_most_100
    (r b : MetricsRecord Binary64.number) (res : Comparison Binary64.number) :
  Binary64.positive_finite (timeMs r) = true ->
  Binary64.positive_finite (timeMs b) = true ->
  compare r b = Some res ->
  direction res = faster ->
  exists n : Z, (0 <= n <= 100)%Z /\ parseFloat (percent res) = num n.
Proof.
  intros Pr Pb H D. apply compare_Some_inv in H as (_ & _ & ->).
  destruct (timeMs r <? timeMs b) eqn:L; [|discriminate D].
  cbn [percent]. cbn [js_lt binary64_Number] in L.
  destruct (timeMs r) as [| | |[] ma ea]; try discriminate Pr.
  destruct (timeMs b) as [| | |[] mc ec]; try discriminate Pb.
  exact (faster_percent_size ma ea mc ec Pr Pb L).
Qed.

Lemma faster_percent_at_most_100_witness :
  exists n : Z,
    (0 <= n <= 100)%Z
    /\ parseFloat (percent {| direction := faster;
                              percent := Binary64.of_Z 14 |})
       = num n.
Proof.
  apply (faster_percent_at_most_100
           (run "quick" (Binary64.of_Z 120)) (run "merge" (Binary64.of_Z 140))
           {| direction := faster; percent := Binary64.of_Z 14 |}).
  - reflexivity.
  - reflexivity.
  - vm_compute. reflexivity.
  - reflexivity.
Defined.

(** *** The performance bar *)

(** X6: a better rank never has a narrower bar, and two cards have bars of
    the same width exactly when they have the same rank or are both
    ranked 8 or worse. *)
Theorem barWidth_antitone {N : Type} {HN : Number N} (p q : Props N) :
  ((rank p <= rank q)%Z -> (width (RankingCard q) <= width (RankingCard p))%Z)
  /\ (width (RankingCard p) = width (RankingCard q)
      <-> rank p = rank q \/ (8 <= rank p /\ 8 <= rank q)%Z).
Proof. cbn [width RankingCard]. unfold barWidth. lia. Qed.

Lemma barWidth_antitone_witness :
  let p := {| algo := "quick";
              metrics := {| swaps := 10; comparisons := 20;
                            time := Binary64.of_Z 120 |};
              rank := 1;
              algorithm := "quick";
              currentAlgoMetrics := None |} in
  let q := {| algo := "bubble";
              metrics := {| swaps := 400; comparisons := 900;
                            time := Binary64.of_Z 980 |};
              rank := 3;
              algorithm := "quick";
              currentAlgoMetrics := None |} in
  (width (RankingCard q) <= width (RankingCard p))%Z.
Proof.
  intros p q. apply (proj1 (barWidth_antitone p q)). cbn. lia.
Defined.

(** *** The class names *)

(** X7: yellow marks the card ranked first, and only that card.  For
    rank 1 the border, background gradient, corner accent, bottom line,
    rank badge and bar carry the yellow classes of the templates, whatever
    the algorithm; for every other rank none of these six classes mentions
    yellow, whatever the algorithm; and the class of the name never does,
    at any rank. *)
Theorem winner_classes {N : Type} (p : Props N) :
  let c := cardClasses p in
  let six := [borderClass c; gradientClass c; accentClass c;
              lineClass c; badgeClass c; barClass c] in
  (rank p = 1%Z ->
   six = ["border-yellow-500";
          "from-yellow-500/5 via-yellow-500/10 to-yellow-500/5";
          "from-yellow-500/10 to-amber-500/10";
          "from-yellow-500/50 via-amber-500/50 to-yellow-500/50";
          "bg-yellow-500/10 text-yellow-500 group-hover:bg-yellow-500/20 "
          ++ "group-hover:text-yellow-400";
          "bg-yellow-500 group-hover:bg-yellow-400"])
  /\ (rank p <> 1%Z ->
      Forall (fun s => String.index 0 "yellow" s = None) six)
  /\ String.index 0 "yellow" (nameClass c) = None
  /\ String.index 0 "yellow" (nameHoverClass c) = None.
Proof.
  intros c six. subst six c. unfold cardClasses.
  cbn [borderClass gradientClass accentClass lineClass badgeClass barClass
       nameClass nameHoverClass].
  split; [|split].
  - intros ->. reflexivity.
  - intros Hr. apply Z.eqb_neq in Hr. rewrite Hr.
    generalize (algo p). intros a.
    unfold getColorScheme. case_algo a; repeat constructor.
  - generalize (algo p). intros a.
    unfold getColorScheme. case_algo a; split; reflexivity.
Qed.

Lemma winner_classes_witness :
  let p := {| algo := "bubble";
              metrics := {| swaps := 400; comparisons := 900;
                            time := Binary64.of_Z 980 |};
              rank := 1;
              algorithm := "quick";
              currentAlgoMetrics := None |} in
  let c := cardClasses p in
  [borderClass c; gradientClass c; accentClass c;
   lineClass c; badgeClass c; barClass c]
  = ["border-yellow-500";
     "from-yellow-500/5 via-yellow-500/10 to-yellow-500/5";
     "from-yellow-500/10 to-amber-500/10";
     "from-yellow-500/50 via-amber-500/50 to-yellow-500/50";
     "bg-yellow-500/10 text-yellow-500 group-hover:bg-yellow-500/20 "
     ++ "group-hover:text-yellow-400";
     "bg-yellow-500 group-hover:bg-yellow-400"].
Proof.
  intros p c. apply (proj1 (winner_classes p)). reflexivity.
Defined.

(** The text of the name is not yellow on the first card: it keeps the
    colour of the scheme of the algorithm. *)
Example winner_name_class :
  nameClass (cardClasses {| algo := "bubble";
                            metrics := {| swaps := 400; comparisons := 900;
                                          time := Binary64.of_Z 980 |};
                            rank := 1;
                            algorithm := "quick";
                            currentAlgoMetrics := None |})
  = "text-red-500".
Proof. reflexivity. Qed.

(** X8: on a card that is not ranked first, the class of the rank badge
    and the class of the bar are made by putting "bg-" in front of the
    text class of the scheme, so that both begin with "bg-text-". *)
Theorem badge_and_bar_classes {N : Type} (p : Props N) :
  rank p <> 1%Z ->
  String.prefix "bg-text-" (badgeClass (cardClasses p)) = true
  /\ String.prefix "bg-text-" (barClass (cardClasses p)) = true.
Proof.
  intros Hr. apply Z.eqb_neq in Hr. unfold cardClasses.
  cbn [badgeClass barClass]. rewrite Hr.
  generalize (algo p). intros a.
  unfold getColorScheme. case_algo a; split; reflexivity.
Qed.

Lemma badge_and_bar_classes_witness :
  let p := {| algo := "bubble";
              metrics := {| swaps := 400; comparisons := 900;
                            time := Binary64.of_Z 980 |};
              rank := 3;
              algorithm := "quick";
              currentAlgoMetrics := None |} in
  String.prefix "bg-text-" (badgeClass (cardClasses p)) = true
  /\ String.prefix "bg-text-" (barClass (cardClasses p)) = true.
Proof.
  intros p. apply (badge_and_bar_classes p). cbn. discriminate.
Defined.

(** ** The ranking engine *)

Import RankingEngine.

Section Ranking.

Context {N : Type} {HN : Number N}.

(** The order of the times, as far as the engine needs it: on strictly
    positive times [<=] is transitive and total. *)
Hypothesis le_trans_pos :
  forall x y z : N,
    (x >? num 0) = true -> (y >? num 0) = true -> (z >? num 0) = true ->
    (x <=? y) = true -> (y <=? z) = true -> (x <=? z) = true.
Hypothesis le_total_pos :
  forall x y : N,
    (x >? num 0) = true -> (y >? num 0) = true ->
    (x <=? y) = false -> (y <=? x) = true.

Lemma insert_perm (r : MetricsRecord N) l :
  Permutation (insert r l) (r :: l).
Proof.
  induction l as [|h t IH]; cbn.
  - reflexivity.
  - destruct (timeMs r <=? timeMs h).
    + reflexivity.
    + rewrite IH. apply perm_swap.
Qed.

Lemma sort_perm (l : list (MetricsRecord N)) : Permutation (sort l) l.
Proof.
  induction l as [|r t IH]; cbn.
  - reflexivity.
  - rewrite insert_perm. now constructor.
Qed.

Lemma insert_sorted (r : MetricsRecord N) l :
  eligible r = true ->
  Forall (fun x => eligible x = true) l ->
  StronglySorted by_time l ->
  StronglySorted by_time (insert r l).
Proof.
  intros Er El Sl. induction Sl as [|h t St IH Hh]; cbn.
  - repeat constructor.
  - inversion El as [|? ? Eh Et]; subst.
    destruct (timeMs r <=? timeMs h) eqn:C.
    + constructor; [now constructor|].
      constructor; [exact C|].
      rewrite Forall_forall in Hh, Et. apply Forall_forall.
      intros z Hz.
      apply (le_trans_pos _ (timeMs h) _ Er Eh (Et z Hz) C (Hh z Hz)).
    + constructor; [now apply IH|].
      apply (Permutation_Forall (Permutation_sym (insert_perm r t))).
      constructor; [|exact Hh].
      now apply le_total_pos.
Qed.

Lemma sort_sorted (l : list (MetricsRecord N)) :
  Forall (fun x => eligible x = true) l -> StronglySorted by_time (sort l).
Proof.
  induction 1 as [|r t Er Et IH]; cbn.
  - constructor.
  - apply insert_sorted; [assumption| |assumption].
    apply (Permutation_Forall (Permutation_sym (sort_perm t))). exact Et.
Qed.

Lemma filter_eligible (l : list (MetricsRecord N)) :
  Forall (fun x => eligible x = true) (filter eligible l).
Proof. apply Forall_forall. intros x Hx. now apply filter_In in Hx. Qed.

Lemma number_from_records (n : Z) (l : list (MetricsRecord N)) :
  map ranked_record (number_from n l) = l.
Proof.
  revert n. induction l as [|r t IH]; intros n; cbn; [|rewrite IH];
    reflexivity.
Qed.

Lemma number_from_ranks (n : nat) (l : list (MetricsRecord N)) :
  map ranked_rank (number_from (Z.of_nat n) l)
  = map Z.of_nat (seq n (List.length l)).
Proof.
  revert n. induction l as [|r t IH]; intros n; cbn; [reflexivity|].
  f_equal. rewrite <- IH. do 2 f_equal. lia.
Qed.

Lemma number_from_length (n : Z) (l : list (MetricsRecord N)) :
  List.length (number_from n l) = List.length l.
Proof.
  revert n. induction l as [|r t IH]; intros n; cbn; [|rewrite IH];
    reflexivity.
Qed.

Lemma rank_spec (records : list (MetricsRecord N)) :
  let ranked := rank records in
  StronglySorted by_time (map ranked_record ranked)
  /\ Permutation (map ranked_record ranked) (filter eligible records)
  /\ (forall r, In r (map ranked_record ranked)
                <-> In r records /\ (timeMs r >? num 0) = true)
  /\ List.length ranked = List.length (filter eligible records)
  /\ map ranked_rank ranked = map Z.of_nat (seq 1 (List.length ranked)).
Proof.
  cbv zeta. unfold rank. rewrite number_from_records, number_from_length.
  pose proof (sort_perm (filter eligible records)) as P.
  split; [apply sort_sorted, filter_eligible|].
  split; [exact P|].
  split; [|split].
  - intros r. change (timeMs r >? num 0) with (eligible r).
    rewrite <- (filter_In eligible r records).
    split; apply Permutation_in; [exact P | now apply Permutation_sym].
  - now apply Permutation_length.
  - apply (number_from_ranks 1).
Qed.

End Ranking.

(** On strictly positive binary64 values [<=] is the lexicographic order
    of the exponent and the mantissa, below +Infinity. *)
Lemma binary64_le_trans_pos (x y z : spec_float) :
  SFltb (Binary64.of_Z 0) x = true ->
  SFltb (Binary64.of_Z 0) y = true ->
  SFltb (Binary64.of_Z 0) z = true ->
  SFleb x y = true -> SFleb y z = true -> SFleb x z = true.
Proof.
  destruct x as [|[]| |[] m1 e1]; try discriminate;
    destruct y as [|[]| |[] m2 e2]; try discriminate;
    destruct z as [|[]| |[] m3 e3]; try discriminate;
    intros _ _ _; try (cbn; congruence).
  unfold SFleb, SFcompare.
  change (Pos.compare_cont Eq m1 m2) with (m1 ?= m2)%positive.
  change (Pos.compare_cont Eq m2 m3) with (m2 ?= m3)%positive.
  change (Pos.compare_cont Eq m1 m3) with (m1 ?= m3)%positive.
  destruct (Z.compare_spec e1 e2), (Z.compare_spec e2 e3),
    (Z.compare_spec e1 e3); try congruence; try lia;
    destruct (Pos.compare_spec m1 m2), (Pos.compare_spec m2 m3),
      (Pos.compare_spec m1 m3); try congruence; lia.
Qed.

Lemma binary64_le_total_pos (x y : spec_float) :
  SFltb (Binary64.of_Z 0) x = true ->
  SFltb (Binary64.of_Z 0) y = true ->
  SFleb x y = false -> SFleb y x = true.
Proof.
  unfold SFleb. rewrite (SFcompare_antisym x y).
  destruct x as [|[]| |[] m1 e1]; try discriminate;
    destruct y as [|[]| |[] m2 e2]; try discriminate; intros _ _;
    destruct (SFcompare _ _) as [[]|] eqn:E; cbn; intros H;
    try discriminate; try reflexivity; cbn in E; discriminate.
Qed.

(** C7: for every input, the ranked sequence is sorted ascending by time,
    holds exactly the records whose time is strictly positive (each as
    often as the input has it), is as long as there are eligible records,
    and carries the ranks 1, 2, ..., N in this order; proved for binary64
    times. *)
Theorem rank_sorted_eligible_contiguous
    (records : list (MetricsRecord Binary64.number)) :
  let ranked := rank records in
  StronglySorted by_time (map ranked_record ranked)
  /\ Permutation (map ranked_record ranked) (filter eligible records)
  /\ (forall r, In r (map ranked_record ranked)
                <-> In r records /\ (timeMs r >? num 0) = true)
  /\ List.length ranked = List.length (filter eligible records)
  /\ map ranked_rank ranked = map Z.of_nat (seq 1 (List.length ranked)).
Proof.
  apply rank_spec.
  - exact binary64_le_trans_pos.
  - exact binary64_le_total_pos.
Qed.

Lemma rank_sorted_eligible_contiguous_witness :
  let records :=
    [run "quick" (Binary64.of_Z 120); run "bubble" (Binary64.of_Z 980);
     run "heap" (Binary64.of_Z 0); run "merge" (Binary64.of_Z 140)] in
  let ranked := rank records in
  StronglySorted by_time (map ranked_record ranked)
  /\ Permutation (map ranked_record ranked) (filter eligible records)
  /\ (forall r, In r (map ranked_record ranked)
                <-> In r records /\ (timeMs r >? num 0) = true)
  /\ List.length ranked = List.length (filter eligible records)
  /\ map ranked_rank ranked = map Z.of_nat (seq 1 (List.length ranked)).
Proof.
  intros records.
  apply (rank_sorted_eligible_contiguous records).
Defined.

(** The same on exact numbers. *)
Lemma exact_rank_spec
    (records : list (MetricsRecord JS.number)) :
  let ranked := rank records in
  StronglySorted by_time (map ranked_record ranked)
  /\ Permutation (map ranked_record ranked) (filter eligible records)
  /\ (forall r, In r (map ranked_record ranked)
                <-> In r records /\ (timeMs r >? num 0) = true)
  /\ List.length ranked = List.length (filter eligible records)
  /\ map ranked_rank ranked = map Z.of_nat (seq 1 (List.length ranked)).
Proof.
  apply rank_spec.
  - intros x y z _ _ _. cbn [js_le exact_Number].
    destruct x as [| | |a], y as [| | |b], z as [| | |c];
      try (cbn; congruence).
    rewrite !le_Fin. apply Qle_trans.
  - intros x y. cbn [js_lt js_le num exact_Number].
    destruct x as [| | |a], y as [| | |b]; try (cbn; congruence).
    intros _ _. rewrite <- Bool.not_true_iff_false, !le_Fin.
    intros H. apply Qlt_le_weak. now apply Qnot_le_lt.
Qed.

(** The examples of the specification: quick 120, bubble 980 and merge 140
    are ranked quick, merge, bubble; an unmeasured run is left out; of two
    records with the same time the first of the input is ranked first. *)
Example rank_three_runs :
  map (fun e => (algorithmId (ranked_record e), ranked_rank e))
      (rank [run "quick" (Binary64.of_Z 120); run "bubble" (Binary64.of_Z 980);
             run "merge" (Binary64.of_Z 140)])
  = [("quick", 1%Z); ("merge", 2%Z); ("bubble", 3%Z)].
Proof. reflexivity. Qed.

Example rank_unmeasured_run : rank [run "bubble" (Binary64.of_Z 0)] = [].
Proof. reflexivity. Qed.

Example rank_tie_keeps_input_order :
  map (fun e => (algorithmId (ranked_record e), ranked_rank e))
      (rank [run "heap" (Binary64.of_Z 140); run "quick" (Binary64.of_Z 120);
             run "merge" (Binary64.of_Z 140)])
  = [("quick", 1%Z); ("heap", 2%Z); ("merge", 3%Z)].
Proof. reflexivity. Qed.

(** * Properties of the mobile overlay *)

Import MobileOverlay.

Lemma getItem_setItem (key value : string) (s : Storage) :
  getItem (setItem key value s) key = Some value.
Proof. unfold getItem, setItem. now rewrite String.eqb_refl. Qed.

Lemma getItem_setItem_other (key key' value : string) (s : Storage) :
  key' <> key -> getItem (setItem key value s) key' = getItem s key'.
Proof.
  intros H. unfold getItem, setItem. apply String.eqb_neq in H.
  now rewrite H.
Qed.

(** When the stored choice says that the visitor continued, the effect
    never shows the overlay. *)
Lemma mount_continued (env : Env) :
  getItem (localStorage env) "continue-on-mobile" = Some "true" ->
  forall w, ~ In (w, SetOverlayVisible true) (actions (mount env)).
Proof.
  intros H w. unfold mount. rewrite H.
  destruct (is_true_text (getItem (localStorage env) "request-desktop-site"));
    cbn [actions].
  - cbn. intros [E|[E|[]]]; discriminate E.
  - rewrite andb_false_r. intros [].
Qed.

(** X9: once one of the two buttons has been clicked, the overlay is
    never shown again by a later mount with the storage the click left,
    whatever the browser and the width of the window are, and whether or
    not the injected script of "Switch to Desktop Mode" completed. *)
Theorem overlay_not_shown_again
    (s : Storage) (fullscreen scriptCompletes : bool)
    (ua : string) (width : Z) (w : When) :
  ~ In (w, SetOverlayVisible true)
      (actions (mount {| localStorage := snd (handleContinue s);
                         userAgent := ua;
                         innerWidth := width |}))
  /\ ~ In (w, SetOverlayVisible true)
        (actions (mount {| localStorage :=
                             snd (handleRequestDesktop fullscreen
                                    scriptCompletes s);
                           userAgent := ua;
                           innerWidth := width |})).
Proof.
  split; apply mount_continued; cbn [localStorage snd handleContinue
                                      handleRequestDesktop].
  - apply getItem_setItem.
  - destruct scriptCompletes.
    + rewrite getItem_setItem_other by discriminate. apply getItem_setItem.
    + apply getItem_setItem.
Qed.

(** X10: after "Switch to Desktop Mode", a later mount applies the desktop
    look at once (the viewport scale and the class), shows nothing and
    registers no listener, if the injected script completed; if it did
    not, and desktop mode was not stored before, the later mount applies
    none of the desktop look. *)
Theorem desktop_mode_after_reload
    (s : Storage) (fullscreen scriptCompletes : bool)
    (ua : string) (width : Z) :
  let later :=
    mount {| localStorage :=
               snd (handleRequestDesktop fullscreen scriptCompletes s);
             userAgent := ua;
             innerWidth := width |} in
  (scriptCompletes = true ->
   actions later = [(Now, SetViewportScale); (Now, AddDesktopClass)]
   /\ listener later = None)
  /\ (scriptCompletes = false ->
      is_true_text (getItem s "request-desktop-site") = false ->
      actions later = [] /\ listener later = Some false).
Proof.
  cbv zeta. split.
  - intros ->. unfold mount.
    cbn [localStorage snd handleRequestDesktop].
    rewrite getItem_setItem. cbn. split; reflexivity.
  - intros -> H. unfold mount.
    cbn [localStorage snd handleRequestDesktop].
    rewrite (getItem_setItem_other "continue-on-mobile"
               "request-desktop-site") by discriminate.
    rewrite H, getItem_setItem. cbn [is_true_text String.eqb].
    rewrite andb_false_r. split; reflexivity.
Qed.

Lemma desktop_mode_after_reload_witness :
  let later :=
    mount {| localStorage :=
               snd (handleRequestDesktop true true (fun _ => None));
             userAgent := "Mozilla/5.0 (Linux; Android 14)";
             innerWidth := 412 |} in
  actions later = [(Now, SetViewportScale); (Now, AddDesktopClass)]
  /\ listener later = None.
Proof.
  apply (proj1 (desktop_mode_after_reload (fun _ => None) true true
                  "Mozilla/5.0 (Linux; Android 14)" 412)).
  reflexivity.
Defined.

(** X11: the listener of [orientationchange] never does anything: the
    effect registers it only on the path where [hasRequestedDesktop] is
    false, and the handler acts only when it is true. *)
Theorem orientation_listener_idle (env : Env) (hasRequestedDesktop : bool) :
  listener (mount env) = Some hasRequestedDesktop ->
  handleOrientationChange hasRequestedDesktop = [].
Proof.
  unfold mount.
  destruct (is_true_text (getItem (localStorage env) "request-desktop-site"))
    eqn:E; cbn [listener].
  - discriminate.
  - intros [= <-]. reflexivity.
Qed.

Lemma orientation_listener_idle_witness :
  handleOrientationChange false = [].
Proof.
  apply (orientation_listener_idle
           {| localStorage := fun _ => None;
              userAgent := "Mozilla/5.0 (iPhone)";
              innerWidth := 390 |} false).
  reflexivity.
Defined.

(** X12: the effect never both applies the desktop look and shows the
    overlay, and it shows the overlay only on what it takes for a mobile
    device: a browser whose name matches one of the words, or a window of
    at most 768 pixels. *)
Theorem overlay_only_on_mobile (env : Env) (w : When) :
  In (w, SetOverlayVisible true) (actions (mount env)) ->
  isMobileDevice env = true
  /\ (forall w', ~ In (w', SetViewportScale) (actions (mount env)))
  /\ (forall w', ~ In (w', AddDesktopClass) (actions (mount env)))
  /\ In (NextFrame, SetBodyOverflow "hidden") (actions (mount env)).
Proof.
  unfold mount.
  destruct (is_true_text (getItem (localStorage env) "request-desktop-site"));
    cbn [actions].
  - cbn. intros [E|[E|[]]]; discriminate E.
  - destruct (isMobileDevice env); cbn [andb]; [|intros []].
    destruct (negb _); [|intros []]. intros _.
    split; [reflexivity|]. split; [|split].
    + intros w' H. cbn in H.
      repeat (destruct H as [H|H]; [discriminate H|]). exact H.
    + intros w' H. cbn in H.
      repeat (destruct H as [H|H]; [discriminate H|]). exact H.
    + cbn. auto.
Qed.

Lemma overlay_only_on_mobile_witness :
  let env := {| localStorage := fun _ => None;
                userAgent := "Mozilla/5.0 (Windows NT 10.0; Win64; x64)";
                innerWidth := 640 |} in
  isMobileDevice env = true
  /\ (forall w', ~ In (w', SetViewportScale) (actions (mount env)))
  /\ (forall w', ~ In (w', AddDesktopClass) (actions (mount env)))
  /\ In (NextFrame, SetBodyOverflow "hidden") (actions (mount env)).
Proof.
  intros env. apply (overlay_only_on_mobile env NextFrame).
  vm_compute. left. reflexivity.
Defined.

(** * Properties of the sound button *)

Import SoundButton.

Lemma initialEnabled_stringify (b : bool) (s : Storage) :
  initialEnabled (setItem "soundEnabled" (JSON_stringify b) s) = Some b.
Proof.
  unfold initialEnabled. rewrite getItem_setItem. now destruct b.
Qed.

(** One click keeps the stored preference and the state in step. *)
Lemma handleToggle_reload (enabled : bool) (engine : Engine) (s : Storage) :
  initialEnabled s = Some enabled ->
  initialEnabled (storage (handleToggle enabled engine s))
  = Some (isEnabled (handleToggle enabled engine s)).
Proof.
  intros H. unfold handleToggle.
  destruct (negb (isInitialized engine) && negb (initSucceeds engine));
    [exact H|].
  destruct (switchSucceeds engine); [|exact H].
  cbn [storage isEnabled]. apply initialEnabled_stringify.
Qed.

(** X13: the state that the button shows is always the one that a reload
    would read back from the storage: this holds when the button is
    mounted and is kept by every click, whether the audio engine fails or
    not. *)
Theorem reload_restores_state
    (engines : list Engine) (enabled : bool) (s : Storage) :
  initialEnabled s = Some enabled ->
  initialEnabled (snd (clicks engines enabled s))
  = Some (fst (clicks engines enabled s)).
Proof.
  revert enabled s. induction engines as [|engine rest IH];
    intros enabled s H; cbn [clicks].
  - exact H.
  - apply IH. now apply handleToggle_reload.
Qed.

Lemma reload_restores_state_witness :
  let engines :=
    [ {| isInitialized := false; initSucceeds := true;
         switchSucceeds := true |};
      {| isInitialized := true; initSucceeds := true;
         switchSucceeds := false |};
      {| isInitialized := true; initSucceeds := true;
         switchSucceeds := true |} ] in
  initialEnabled (snd (clicks engines false (fun _ => None)))
  = Some (fst (clicks engines false (fun _ => None))).
Proof.
  intros engines.
  apply (reload_restores_state engines false (fun _ => None)).
  reflexivity.
Defined.

(** X14: after a series of clicks the sound is in its first state when an
    even number of clicks went through and in the other state when an odd
    number did; a click that fails is not counted. *)
Theorem clicks_parity (engines : list Engine) (enabled : bool) (s : Storage) :
  fst (clicks engines enabled s)
  = xorb enabled (Nat.odd (List.length (filter goesThrough engines))).
Proof.
  revert enabled s. induction engines as [|engine rest IH];
    intros enabled s; cbn [clicks filter].
  - cbn. now rewrite xorb_false_r.
  - rewrite IH. unfold handleToggle, goesThrough.
    destruct (isInitialized engine), (initSucceeds engine),
      (switchSucceeds engine); cbn [negb andb orb isEnabled List.length];
      try reflexivity;
      rewrite Nat.odd_succ, <- Nat.negb_odd;
      destruct enabled, (Nat.odd _); reflexivity.
Qed.
